(** * Label templates: placeholder fields, mail merge and folder closure

    A shallow embedding of the core of [src/index.ts]: the placeholder
    grammar [/\{\{([A-Za-z0-9_]+)\}\}/g], [extractFieldsFromItems],
    [replacePlaceholders], [cloneItemsWithData], [findDescendantFolderIds]
    and the [POST /api/merge] handler, with the properties the
    specification states about them (Part II); and of the schemas, the
    folder, template and label handlers and the CORS options, with
    further properties of the code (Part III).

    Conventions of the embedding.
    - A JavaScript string is a [string]; one character stands for one code
      unit. The development covers code units below 256.
    - A JavaScript number that is only stored and copied is a [float]
      (binary64).
    - The document store is passed explicitly: a collection is a finite map
      from the document id to the document. *)

From Stdlib Require Import String Ascii Floats.
From Equations Require Import Equations.
From stdpp Require Import gmap strings list pretty relations sorting.

(** * Part I: the model *)

(** ** Strings *)
Module Str.

(** [concat] of a list of strings, as [Array.prototype.join("")]. *)
Definition join (l : list string) : string := foldr String.append "" l.

End Str.

(** ** The placeholder grammar

    [const placeholderRegex = /\{\{([A-Za-z0-9_]+)\}\}/g] *)
Module Placeholder.

(** The character class [[A-Za-z0-9_]]. *)
Definition is_word (c : ascii) : bool :=
  let n := nat_of_ascii c in
  (((65 <=? n) && (n <=? 90)) || ((97 <=? n) && (n <=? 122))
   || ((48 <=? n) && (n <=? 57)) || (n =? 95))%nat.

(** Matching a literal pattern [p] at the head of [s]; the rest of [s]
    when it matches. *)
Fixpoint literal (p s : string) : option string :=
  match p with
  | "" => Some s
  | String a p' =>
      match s with
      | String b s' => if Ascii.eqb a b then literal p' s' else None
      | "" => None
      end
  end.

(** [([A-Za-z0-9_]+)\}\}] at the head of [s]: the quantifier is greedy,
    so a longer name is tried first and the engine backtracks to a
    shorter one when the rest of the pattern fails after it. *)
Fixpoint match_name (s : string) : option (string * string) :=
  match s with
  | String c s' =>
      if is_word c then
        match match_name s' with
        | Some (w, rest) => Some (String c w, rest)
        | None => (λ rest, (String c "", rest)) <$> literal "}}" s'
        end
      else None
  | "" => None
  end.

(** One attempt of the whole pattern at the head of [s]: the captured
    name and what follows the match. *)
Definition exec (s : string) : option (string * string) :=
  literal "{{" s ≫= match_name.

(** The pieces a global scan cuts a string into: a character that starts
    no match, or a whole match with its captured name ([lastIndex] moves
    past the match). *)
Inductive piece := Lit (c : ascii) | Hole (name : string).

(** What the grammar says, independently of the matcher. *)
Fixpoint all_word (w : string) : bool :=
  match w with
  | "" => true
  | String c w' => is_word c && all_word w'
  end.

(** [w] is a name: one or more characters of the class. *)
Definition is_name (w : string) : Prop := w ≠ "" ∧ all_word w = true.

(** The placeholder for the name [w]. *)
Definition token (w : string) : string := "{{" +:+ w +:+ "}}".

Global Arguments token : simpl never.

(** The scan terminates: a match consumes at least one character. *)
Lemma literal_length p s rest :
  literal p s = Some rest →
  String.length s = String.length p + String.length rest.
Proof.
  revert s. induction p as [|a p IH]; intros s; simpl.
  - by intros [= ->].
  - destruct s as [|b s]; [done|]. destruct (Ascii.eqb a b); [|done].
    intros H%IH. simpl. lia.
Qed.

Lemma match_name_length s w rest :
  match_name s = Some (w, rest) → String.length rest < String.length s.
Proof.
  revert w rest. induction s as [|c s IH]; intros w rest; [done|].
  cbn [match_name]. destruct (is_word c); [|done].
  destruct (match_name s) as [[w' r']|].
  - intros [= <- <-]. specialize (IH _ _ eq_refl). simpl. lia.
  - destruct (literal "}}" s) as [r|] eqn:E; [|done].
    intros [= <- <-]. apply literal_length in E. simpl in *. lia.
Qed.

Lemma exec_length s w rest :
  exec s = Some (w, rest) → String.length rest < String.length s.
Proof.
  unfold exec. destruct (literal "{{" s) as [r|] eqn:E; [|done]. simpl.
  intros H%match_name_length. apply literal_length in E. simpl in E. lia.
Qed.

(** *** The global scan *)

(** The value of an expression together with the equation that says so. *)
Definition inspect {A} (a : A) : {b | a = b} := exist _ a eq_refl.

(** The scan: at a character where the pattern matches, the match is one
    piece and the scan goes on after it; elsewhere the character is a piece
    of its own. *)
Equations? pieces (s : string) : list piece by wf (String.length s) lt :=
  pieces "" := [];
  pieces (String c s') with inspect (exec (String c s')) := {
    | exist _ (Some (w, rest)) _ := Hole w :: pieces rest;
    | exist _ None _ := Lit c :: pieces s' }.
Proof.
  - by apply exec_length in e.
  - simpl. lia.
Qed.

(** [str.matchAll(placeholderRegex)]: one match object per match, here its
    [index] and its capture group [match[1]]. *)
Fixpoint matches_from (i : nat) (ps : list piece) : list (nat * string) :=
  match ps with
  | [] => []
  | Lit _ :: ps' => matches_from (S i) ps'
  | Hole w :: ps' => (i, w) :: matches_from (i + String.length (token w)) ps'
  end.

(** The matches of the whole string. *)
Definition matchAll (s : string) : list (nat * string) :=
  matches_from 0 (pieces s).

(** The capture groups alone, in match order. *)
Definition names (s : string) : list string := (matchAll s).*2.

(** [str.replace(placeholderRegex, (_match, key) => f(key))]: the text
    between the matches is kept and every match gives way to what the
    callback returns for its capture group. The result is not scanned
    again. *)
Definition render (f : string → string) (p : piece) : string :=
  match p with
  | Lit c => String c ""
  | Hole w => f w
  end.

(** The replacement over the whole string. *)
Definition replace (s : string) (f : string → string) : string :=
  Str.join (render f <$> pieces s).

(** The source text of a piece. *)
Definition raw (p : piece) : string := render token p.

End Placeholder.

(** ** The data model *)

(** [type CanvasItemPayload]; [type] is one of ["TEXT" | "QR" | "IMAGE"]. *)
Inductive ItemType := TEXT | QR | IMAGE.

Global Instance ItemType_eq_dec : EqDecision ItemType.
Proof. solve_decision. Defined.

Record CanvasItemPayload := {
  item_id : string;
  item_type : ItemType;
  item_content : string;
  item_x : float;
  item_y : float;
  item_width : float;
  item_height : float;
  item_fontSize : option float;
  item_fontFamily : option string;
  item_fontWeight : option string;
  item_fontStyle : option string;
  item_textDecoration : option string;
  item_color : option string;
  item_textAlign : option string
}.

(** [type TemplateFieldPayload] *)
Record TemplateFieldPayload := {
  field_name : string;
  field_label : string;
  field_targetItemId : string
}.

(** [role: "draft" | "filled"] *)
Inductive Role := draft | filled.

(** A template document, as the fields [mapTemplate] reads from it
    ([createdAt], a time stamp, is left out). *)
Record Template := {
  tpl_name : string;
  tpl_folderId : option string;
  tpl_width : float;
  tpl_height : float;
  tpl_items : list CanvasItemPayload;
  tpl_role : Role;
  tpl_fields : list TemplateFieldPayload
}.

(** A folder document: [{ name, parentId }]. *)
Record Folder := {
  folder_name : string;
  folder_parentId : option string
}.

(** A JavaScript [Map] with string keys: the entries in insertion order. *)
Module JsMap.

Definition t (V : Type) : Type := list (string * V).

(** [new Map()] *)
Definition empty {V} : t V := [].

(** [map.has(k)] *)
Definition has {V} (m : t V) (k : string) : bool := bool_decide (k ∈ m.*1).

(** [map.set(k, v)]: a present key keeps its place and takes the new value,
    a new key goes last. *)
Definition set {V} (m : t V) (k : string) (v : V) : t V :=
  if has m k
  then (λ e, if decide (e.1 = k) then (k, v) else e) <$> m
  else m ++ [(k, v)].

(** [Array.from(map.values())] *)
Definition values {V} (m : t V) : list V := m.*2.

End JsMap.

(** ** Field extraction *)
Module Fields.

Import Placeholder.

(** [!item.content]: the empty string is the one falsy string. *)
Definition falsy (s : string) : bool := bool_decide (s = "").

(** [extractFieldsFromItems] *)
Definition extractFieldsFromItems (items : list CanvasItemPayload)
  : list TemplateFieldPayload :=
  let map :=
    foldl (λ (map : JsMap.t TemplateFieldPayload) item,
      if bool_decide (item_type item ≠ TEXT) || falsy (item_content item)
      then map
      else
        foldl (λ (map : JsMap.t TemplateFieldPayload) name,
          if negb (JsMap.has map name)
          then JsMap.set map name
                 {| field_name := name; field_label := name;
                    field_targetItemId := item_id item |}
          else map) map (names (item_content item)))
      JsMap.empty items in
  JsMap.values map.

(** What the specification scans: the TEXT items with a non-empty content,
    in list order, and in each its placeholders from left to right; every
    occurrence comes with the id of its item. *)
Definition scanned (item : CanvasItemPayload) : bool :=
  bool_decide (item_type item = TEXT) && negb (falsy (item_content item)).

Definition occurrences (items : list CanvasItemPayload)
  : list (string * string) :=
  items ≫= λ item,
    if scanned item
    then (λ name, (name, item_id item)) <$> names (item_content item)
    else [].

(** The first occurrence of every name, in order: an occurrence is kept
    when its name was not met before. *)
Fixpoint first_occurrences (seen : list string) (occ : list (string * string))
  : list (string * string) :=
  match occ with
  | [] => []
  | (name, id) :: occ' =>
      if bool_decide (name ∈ seen) then first_occurrences seen occ'
      else (name, id) :: first_occurrences (seen ++ [name]) occ'
  end.

(** The field of an occurrence. *)
Definition field_of (o : string * string) : TemplateFieldPayload :=
  {| field_name := o.1; field_label := o.1; field_targetItemId := o.2 |}.

(** One step of the two nested loops, on one occurrence. *)
Definition step (map : JsMap.t TemplateFieldPayload) (o : string * string)
  : JsMap.t TemplateFieldPayload :=
  if negb (JsMap.has map o.1) then JsMap.set map o.1 (field_of o) else map.

End Fields.

(** ** Merge rows *)
Module Js.

(** What a property read can give here: [undefined], a string, or a function
    or object (truthy, and not a string). *)
Inductive value := undefined | str (s : string) | object.

(** [type MergeRow = Record<string, string>]: the own properties of a row. *)
Abbreviation MergeRow := (gmap string string).

(** A row is a plain object, so a property it does not own is looked up on
    [Object.prototype], whose members are functions (and [__proto__], an
    object). *)
Definition Object_prototype : list string :=
  [ "constructor"; "__defineGetter__"; "__defineSetter__"; "hasOwnProperty";
    "__lookupGetter__"; "__lookupSetter__"; "isPrototypeOf";
    "propertyIsEnumerable"; "toString"; "valueOf"; "__proto__";
    "toLocaleString" ].

(** [row[key]] *)
Definition get (row : MergeRow) (key : string) : value :=
  match row !! key with
  | Some s => str s
  | None => if bool_decide (key ∈ Object_prototype) then object else undefined
  end.

(** Truthiness: [undefined] and the empty string are falsy. *)
Definition truthy (v : value) : bool :=
  match v with
  | undefined => false
  | str s => negb (bool_decide (s = ""))
  | object => true
  end.

(** [a || b] *)
Definition or (a b : value) : value := if truthy a then a else b.

End Js.

(** ** Row substitution *)
Module Substitution.

Import Placeholder Js.

(** [replacePlaceholders] *)
Definition replacePlaceholders (value : string) (row : MergeRow) : string :=
  if Fields.falsy value then value
  else
    replace value (λ key,
      let replacement := get row key in
      match replacement with           (* typeof replacement === "string" *)
      | str s => s
      | _ => ""
      end).

(** [{ ...item, content }] *)
Definition with_content (item : CanvasItemPayload) (content : string)
  : CanvasItemPayload :=
  {| item_id := item_id item; item_type := item_type item;
     item_content := content;
     item_x := item_x item; item_y := item_y item;
     item_width := item_width item; item_height := item_height item;
     item_fontSize := item_fontSize item;
     item_fontFamily := item_fontFamily item;
     item_fontWeight := item_fontWeight item;
     item_fontStyle := item_fontStyle item;
     item_textDecoration := item_textDecoration item;
     item_color := item_color item;
     item_textAlign := item_textAlign item |}.

(** [cloneItemsWithData]: [{ ...item }] is a copy with the same attributes,
    [{ ...item, content: c }] a copy with the content replaced. *)
Definition cloneItemsWithData (items : list CanvasItemPayload) (row : MergeRow)
  : list CanvasItemPayload :=
  (λ item,
     if bool_decide (item_type item ≠ TEXT) then item
     else with_content item (replacePlaceholders (item_content item) row))
  <$> items.

(** What the specification substitutes for a name: the row's value, or the
    empty string when the row has none. *)
Definition value_of (row : MergeRow) (name : string) : string :=
  default "" (row !! name).

(** A text without any placeholder. *)
Definition no_placeholder (s : string) : Prop :=
  ∀ pre w post, is_name w → s ≠ pre +:+ token w +:+ post.

(** An item's attributes other than its content. *)
Definition same_attributes (a b : CanvasItemPayload) : Prop :=
  item_id a = item_id b ∧ item_type a = item_type b
  ∧ item_x a = item_x b ∧ item_y a = item_y b
  ∧ item_width a = item_width b ∧ item_height a = item_height b
  ∧ item_fontSize a = item_fontSize b
  ∧ item_fontFamily a = item_fontFamily b
  ∧ item_fontWeight a = item_fontWeight b
  ∧ item_fontStyle a = item_fontStyle b
  ∧ item_textDecoration a = item_textDecoration b
  ∧ item_color a = item_color b ∧ item_textAlign a = item_textAlign b.

(** A TEXT item with a content and no styling, for the examples. *)
Definition text_item (id content : string) : CanvasItemPayload :=
  {| item_id := id; item_type := TEXT; item_content := content;
     item_x := 0; item_y := 0; item_width := 100; item_height := 20;
     item_fontSize := None; item_fontFamily := None;
     item_fontWeight := None; item_fontStyle := None;
     item_textDecoration := None; item_color := None;
     item_textAlign := None |}.

(** [substituted row s out]: [out] is [s] with every placeholder occurrence,
    from the left, replaced by the row's value for its name. *)
Inductive substituted (row : MergeRow) : string → string → Prop :=
| substituted_plain s :
    no_placeholder s → substituted row s s
| substituted_token pre w post out :
    no_placeholder pre → is_name w → substituted row post out →
    substituted row (pre +:+ token w +:+ post)
                    (pre +:+ value_of row w +:+ out).

End Substitution.

(** ** The folder tree: descendant closure *)
Module FolderTree.

(** The folder collection: the documents by their [_id]. *)
Abbreviation Folders := (gmap string Folder).

(** [FolderModel.find({ parentId: current }).select("_id")]: the ids of the
    folders whose parent is [current]. *)
Definition find_by_parent (folders : Folders) (current : string)
  : list string :=
  (filter (λ d, folder_parentId d.2 = Some current) (map_to_list folders)).*1.

(** The [while (queue.length)] loop of [findDescendantFolderIds]: [fuel]
    bounds the number of evaluations of the loop condition, and [None]
    means the loop is still running when the bound is reached. *)
Fixpoint loop (fuel : nat) (folders : Folders) (ids queue : list string)
  : option (list string) :=
  match fuel with
  | 0 => None
  | S fuel' =>
      match queue with
      | [] => Some ids
      | current :: queue' =>
          let children := find_by_parent folders current in
          loop fuel' folders (ids ++ children) (queue' ++ children)
      end
  end.

(** [findDescendantFolderIds] *)
Definition findDescendantFolderIds (fuel : nat) (folders : Folders)
    (rootId : string) : option (list string) :=
  loop fuel folders [rootId] [rootId].

(** The call returns [ids]: the loop ends, whatever it takes. *)
Definition returns (folders : Folders) (rootId : string) (ids : list string)
  : Prop :=
  ∃ fuel, findDescendantFolderIds fuel folders rootId = Some ids.

(** [is_parent_of folders p c]: [c] is a folder whose parent id is [p]. *)
Definition is_parent_of (folders : Folders) (p c : string) : Prop :=
  ∃ f, folders !! c = Some f ∧ folder_parentId f = Some p.

(** The parent relation is acyclic: no folder is its own ancestor. *)
Definition acyclic (folders : Folders) : Prop :=
  ∀ x, ¬ tc (is_parent_of folders) x x.

(** No cycle of the parent relation can be reached from [rootId]. *)
Definition no_cycle_from (folders : Folders) (rootId : string) : Prop :=
  ∀ x, rtc (is_parent_of folders) rootId x → ¬ tc (is_parent_of folders) x x.

(** The folders [k] parent steps below the folders of [q]. *)
Fixpoint level (folders : Folders) (k : nat) (q : list string) : list string :=
  match k with
  | 0 => q
  | S k' => level folders k' (q ≫= find_by_parent folders)
  end.

(** Levels 1 to [d] below [q], one after the other. *)
Fixpoint below (folders : Folders) (d : nat) (q : list string) : list string :=
  match d with
  | 0 => []
  | S d' =>
      let children := q ≫= find_by_parent folders in
      children ++ below folders d' children
  end.

(** Following the parent ids upwards from [x] ends within [n] steps. *)
Fixpoint climbs (folders : Folders) (n : nat) (x : string) : bool :=
  match n with
  | 0 => false
  | S n' =>
      match folders !! x with
      | None => true
      | Some f =>
          match folder_parentId f with
          | None => true
          | Some p => climbs folders n' p
          end
      end
  end.

(** A decision procedure for [acyclic]. *)
Definition acyclicb (folders : Folders) : bool :=
  forallb (climbs folders (S (size folders))) (map_to_list folders).*1.

(** The tree of the specification: root → {child1, child2},
    child1 → {grandchild}. *)
Definition example_tree : Folders :=
  {[ "root" := {| folder_name := "Root"; folder_parentId := None |};
     "child1" := {| folder_name := "One"; folder_parentId := Some "root" |};
     "child2" := {| folder_name := "Two"; folder_parentId := Some "root" |};
     "grandchild" :=
       {| folder_name := "Three"; folder_parentId := Some "child1" |} ]}.

(** Two folders that are each other's parent. *)
Definition example_cycle : Folders :=
  {[ "a" := {| folder_name := "A"; folder_parentId := Some "b" |};
     "b" := {| folder_name := "B"; folder_parentId := Some "a" |} ]}.

End FolderTree.

(** ** The merge handler: [POST /api/merge] *)
Module Merge.

Import Js.
Import Fields Substitution.

(** The template collection: the documents by their [_id]. Every call to
    the store is taken to be answered. *)
Abbreviation Templates := (gmap string Template).

(** [req.body]: [templateId], [folderId] and [rows]; [None] stands for a
    member that is missing (or [null]), and for [rows] also for a value
    that is not an array. *)
Record MergeRequest := {
  req_templateId : option string;
  req_folderId : option string;
  req_rows : option (list MergeRow)
}.

(** [type TemplateResponse], what [mapTemplate] makes of a document. *)
Record TemplateResponse := {
  res_id : string;
  res_doc : Template
}.

(** The answer of the handler, by status code. *)
Inductive Response :=
| Created (createdTemplates : list TemplateResponse)   (* 201 *)
| BadRequest                                           (* 400 *)
| NotFound                                             (* 404 *)
| ServerError.                                         (* 500 *)

(** [mapTemplate] *)
Definition mapTemplate (id : string) (template : Template) : TemplateResponse :=
  {| res_id := id; res_doc := template |}.

(** [TemplateModel.create(doc)]: the document is stored under a new id. *)
Definition create (store : Templates) (doc : Template) : string * Templates :=
  let id := fresh (dom store) in (id, <[id := doc]> store).

(** [a ?? b] *)
Definition nullish {A} (a b : option A) : option A :=
  match a with
  | Some _ => a
  | None => b
  end.

(** White space for [String.prototype.trim], among the code units below
    256: TAB, LF, VT, FF, CR, SP and NBSP. *)
Definition is_space (c : ascii) : bool :=
  let n := nat_of_ascii c in
  (((9 <=? n) && (n <=? 13)) || (n =? 32) || (n =? 160))%nat.

(** [s.trimStart()] and [s.trimEnd()] *)
Fixpoint trimStart (s : string) : string :=
  match s with
  | String c s' => if is_space c then trimStart s' else s
  | EmptyString => EmptyString
  end.

Definition trimEnd (s : string) : string :=
  String.rev (trimStart (String.rev s)).

(** [s.trim()] *)
Definition trim (s : string) : string := trimEnd (trimStart s).

(** [`${template.name} #${index + 1}`] *)
Definition fallbackName (template : Template) (index : nat) : string :=
  tpl_name template +:+ " #" +:+ pretty (index + 1).

(** The name of the output for one row; [None] when the evaluation throws
    a [TypeError] ([preferredNameField.trim is not a function]). *)
Definition generatedName (template : Template)
    (effectiveFields : list TemplateFieldPayload) (row : MergeRow)
    (index : nat) : option string :=
  let preferredNameField :=
    or (or (get row "__name") (get row "name"))
       (match effectiveFields with
        | f :: _ =>
            if truthy (str (field_name f)) then get row (field_name f)
            else undefined
        | [] => undefined
        end) in
  match preferredNameField with
  | undefined => Some (fallbackName template index)
  | str s =>
      if truthy (str s) && negb (String.length (trim s) =? 0)
      then Some (trim s)
      else Some (fallbackName template index)
  | object => None
  end.

(** The [for] loop over the rows, from row [index] on. A thrown error ends
    the loop in the [catch] block; what was created before stays. *)
Fixpoint merge_rows (template : Template) (folderId : option string)
    (effectiveFields : list TemplateFieldPayload) (rows : list MergeRow)
    (index : nat) (store : Templates)
    (createdTemplates : list TemplateResponse) : Response * Templates :=
  match rows with
  | [] => (Created createdTemplates, store)
  | row :: rows' =>
      let targetFolderId :=
        nullish (nullish folderId (tpl_folderId template)) None in
      let clonedItems := cloneItemsWithData (tpl_items template) row in
      match generatedName template effectiveFields row index with
      | None => (ServerError, store)
      | Some generatedName =>
          let newTemplate :=
            {| tpl_name := generatedName;
               tpl_folderId := targetFolderId;
               tpl_width := tpl_width template;
               tpl_height := tpl_height template;
               tpl_items := clonedItems;
               tpl_role := filled;
               tpl_fields := effectiveFields |} in
          let '(id, store') := create store newTemplate in
          merge_rows template folderId effectiveFields rows' (S index) store'
            (createdTemplates ++ [mapTemplate id newTemplate])
      end
  end.

(** [template.fields.length ? template.fields : extractFieldsFromItems(..)] *)
Definition effectiveFields (template : Template) : list TemplateFieldPayload :=
  if negb (length (tpl_fields template) =? 0) then tpl_fields template
  else extractFieldsFromItems (tpl_items template).

(** The handler: the answer and the template collection after it. *)
Definition merge (store : Templates) (req : MergeRequest)
  : Response * Templates :=
  match req_templateId req, req_rows req with
  | Some templateId, Some rows =>
      if negb (truthy (str templateId)) || (length rows =? 0)
      then (BadRequest, store)
      else
        match store !! templateId with        (* findById(templateId) *)
        | None => (NotFound, store)
        | Some template =>
            merge_rows template (req_folderId req) (effectiveFields template)
              rows 0 store []
        end
  | _, _ => (BadRequest, store)
  end.

(** *** What the specification says of an output *)

(** A row entry that is a non-empty string. *)
Definition nonempty (o : option string) : option string :=
  match o with
  | Some s => if decide (s = "") then None else Some s
  | None => None
  end.





(** The name lookup reads a member the row inherits from
    [Object.prototype]: the row has no non-empty [__name] or [name], and no
    entry of its own under the first field's name, which is the name of
    such a member. *)
Definition reads_inherited (fields : list TemplateFieldPayload)
    (row : MergeRow) : Prop :=
  nonempty (row !! "__name") = None ∧ nonempty (row !! "name") = None
  ∧ ∃ f fs, fields = f :: fs ∧ row !! field_name f = None
            ∧ field_name f ∈ Object_prototype.

(** The request passes the checks of the handler and names a template. *)
Definition resolves (store : Templates) (req : MergeRequest)
    (template : Template) (rows : list MergeRow) : Prop :=
  ∃ templateId,
    req_templateId req = Some templateId ∧ templateId ≠ ""
    ∧ req_rows req = Some rows ∧ rows ≠ []
    ∧ store !! templateId = Some template.


(** A template named [Base] in folder [f1] with one TEXT item, and the
    fields extracted from it. *)
Definition base (content : string) : Template :=
  {| tpl_name := "Base"; tpl_folderId := Some "f1";
     tpl_width := 100; tpl_height := 50;
     tpl_items := [text_item "a" content];
     tpl_role := draft;
     tpl_fields := extractFieldsFromItems [text_item "a" content] |}.

(** A request for the template stored as [t1]. *)
Definition request (folderId : option string) (rows : list MergeRow)
  : MergeRequest :=
  {| req_templateId := Some "t1"; req_folderId := folderId;
     req_rows := Some rows |}.

End Merge.

(** ** The schemas: required paths *)
Module Schema.

(** [{ type: String, required: true }]: the path holds a string other than
    the empty one. The required numbers and the enumerated [type] and
    [role] are fields of the records, so they are always there. *)
Definition required (s : string) : bool := negb (bool_decide (s = "")).

(** [canvasItemSchema] *)
Definition valid_item (item : CanvasItemPayload) : bool :=
  required (item_id item).

(** [templateFieldSchema] *)
Definition valid_field (f : TemplateFieldPayload) : bool :=
  required (field_name f) && required (field_label f)
  && required (field_targetItemId f).

(** [templateSchema] *)
Definition valid_template (t : Template) : bool :=
  required (tpl_name t) && forallb valid_item (tpl_items t)
  && forallb valid_field (tpl_fields t).

(** [folderSchema] *)
Definition valid_folder (f : Folder) : bool := required (folder_name f).

End Schema.

(** ** The folder handlers: [POST /api/folders], [DELETE /api/folders/:id]

    As for the merge handler, every call to the store is taken to be
    answered, and an id is a string that the store takes as an id. *)
Module FolderApi.

Import Js Fields Substitution FolderTree Merge.

(** [req.body] of [POST /api/folders]: [name] and [parentId]; [None] stands
    for a member that is missing (or [null]). *)
Record FolderBody := {
  body_name : option string;
  body_parentId : option string
}.

(** [type FolderResponse] *)
Record FolderResponse := {
  fres_id : string;
  fres_name : string;
  fres_parentId : option string
}.

(** [mapFolder] *)
Definition mapFolder (id : string) (folder : Folder) : FolderResponse :=
  {| fres_id := id; fres_name := folder_name folder;
     fres_parentId := nullish (folder_parentId folder) None |}.

(** The answer of [POST /api/folders], by status code. *)
Inductive CreateResponse :=
| FolderCreated (folder : FolderResponse)   (* 201 *)
| FolderBadRequest.                         (* 400 *)

(** [POST /api/folders]: the answer and the folder collection after it.
    [FolderModel.create] stores the document under a new id. *)
Definition createFolder (folders : Folders) (body : FolderBody)
  : CreateResponse * Folders :=
  match body_name body with
  | None => (FolderBadRequest, folders)
  | Some name =>
      if negb (truthy (str name)) then (FolderBadRequest, folders)
      else
        let folder :=
          {| folder_name := name;
             folder_parentId := nullish (body_parentId body) None |} in
        let id := fresh (dom folders) in
        (FolderCreated (mapFolder id folder), <[id := folder]> folders)
  end.

(** The body of the answer of [DELETE /api/folders/:id]. *)
Record DeleteResponse := {
  deletedFolderIds : list string;
  deletedTemplateIds : list string
}.

(** [{ folderId: { $in: ids } }]: the template lies in one of the folders. *)
Definition in_folders (ids : list string) (template : Template) : bool :=
  match tpl_folderId template with
  | Some folderId => bool_decide (folderId ∈ ids)
  | None => false
  end.

(** [DELETE /api/folders/:id]: the answer and the two collections after
    it; [None] when [findDescendantFolderIds] is still running after
    [fuel] evaluations of its loop condition. *)
Definition deleteFolder (fuel : nat) (folders : Folders)
    (templates : Templates) (id : string)
  : option (DeleteResponse * Folders * Templates) :=
  match findDescendantFolderIds fuel folders id with
  | None => None
  | Some idsToDelete =>
      let folders' := filter (λ d, d.1 ∉ idsToDelete) folders in
      let templateIds :=
        (filter (λ d, in_folders idsToDelete d.2 = true)
           (map_to_list templates)).*1 in
      let templates' :=
        if negb (length templateIds =? 0)
        then filter (λ d, d.1 ∉ templateIds) templates
        else templates in
      Some ({| deletedFolderIds := idsToDelete;
               deletedTemplateIds := templateIds |}, folders', templates')
  end.

(** Every parent id names a folder of the collection. *)
Definition closed (folders : Folders) : Prop :=
  ∀ x f p, folders !! x = Some f → folder_parentId f = Some p →
           is_Some (folders !! p).

(** Every template with a folder id lies in a folder of the collection. *)
Definition homed (folders : Folders) (templates : Templates) : Prop :=
  ∀ t d p, templates !! t = Some d → tpl_folderId d = Some p →
           is_Some (folders !! p).

(** [closed] and [homed], as tests. *)
Definition closedb (folders : Folders) : bool :=
  forallb (λ d : string * Folder,
             match folder_parentId d.2 with
             | Some p => bool_decide (is_Some (folders !! p))
             | None => true
             end) (map_to_list folders).

Definition homedb (folders : Folders) (templates : Templates) : bool :=
  forallb (λ d : string * Template,
             match tpl_folderId d.2 with
             | Some p => bool_decide (is_Some (folders !! p))
             | None => true
             end) (map_to_list templates).

(** Templates in folders of the example tree, at the top level and in a
    folder that is not there. *)
Definition example_template (name : string) (folderId : option string)
  : Template :=
  {| tpl_name := name; tpl_folderId := folderId;
     tpl_width := 100; tpl_height := 50;
     tpl_items := [text_item "a" "{{sku}}"]; tpl_role := draft;
     tpl_fields := extractFieldsFromItems [text_item "a" "{{sku}}"] |}.

Definition example_templates : Templates :=
  {[ "t1" := example_template "One" (Some "child1");
     "t2" := example_template "Deep" (Some "grandchild");
     "t3" := example_template "Top" None;
     "t4" := example_template "Side" (Some "child2") ]}.

End FolderApi.

(** ** The CORS options *)
Module Cors.

Import Js Merge.

(** [s.split(sep)] for a separator of one character: the pieces of [s]
    between the separators; a string without separator is its one piece. *)
Fixpoint split (sep : ascii) (s : string) : list string :=
  match s with
  | EmptyString => [EmptyString]
  | String c s' =>
      if Ascii.eqb c sep then EmptyString :: split sep s'
      else
        match split sep s' with
        | piece :: pieces => String c piece :: pieces
        | [] => [String c EmptyString]
        end
  end.

(** [allowedOrigins]: [rawOrigins] is [process.env.APP_ORIGIN], [None] when
    the variable is not set. *)
Definition allowedOrigins (rawOrigins : option string) : option (list string) :=
  match rawOrigins with
  | None => None
  | Some raw =>
      Some (filter (λ origin, truthy (str origin) = true)
              (trim <$> split "," raw))
  end.

(** The [origin] option of [corsOptions]. *)
Inductive OriginOption :=
| origin_true                                       (* [{ origin: true }] *)
| origin_callback (check : option string → bool).

(** [corsOptions]: with a list that has an entry, the callback, which is
    called with [null, true] ([true] here) or with an error ([false]); the
    origin of the request is [None] when it has none. *)
Definition corsOptions (rawOrigins : option string) : OriginOption :=
  match allowedOrigins rawOrigins with
  | Some allowedOrigins =>
      if negb (length allowedOrigins =? 0)
      then
        origin_callback (λ origin,
          match origin with
          | None => true
          | Some origin =>
              negb (truthy (str origin))
              || bool_decide ("*" ∈ allowedOrigins)
              || bool_decide (origin ∈ allowedOrigins)
          end)
      else origin_true
  | None => origin_true
  end.

(** What the middleware makes of the option: [origin: true] lets every
    request pass, a callback decides. *)
Definition allowed (rawOrigins : option string) (origin : option string)
  : bool :=
  match corsOptions rawOrigins with
  | origin_true => true
  | origin_callback check => check origin
  end.

(** The characters of a string, and [trimStart] on them. *)
Abbreviation chars := list_ascii_of_string.

Fixpoint trimStartL (l : list ascii) : list ascii :=
  match l with
  | c :: l' => if is_space c then trimStartL l' else l
  | [] => []
  end.

End Cors.

(** ** The template handlers: [POST /api/templates],
    [PUT /api/templates/:id], [DELETE /api/templates/:id] and
    [POST /api/templates/:id/fields/refresh]

    Every call to the store is taken to be answered, and an id is a string
    that the store takes as an id; [create] and [save] throw when the
    document fails the schema. *)
Module TemplateApi.

Import Placeholder Js Fields Substitution Merge Schema.

(** [req.body] read as [TemplatePayload]: a member is [None] when it is
    missing or is not of the type that [validateTemplatePayload] asks for;
    [folderId] is [None] when the key is missing and [Some None] when it
    is [null]. *)
Record TemplatePayload := {
  payload_name : option string;
  payload_folderId : option (option string);
  payload_width : option float;
  payload_height : option float;
  payload_items : option (list CanvasItemPayload)
}.

(** [type TemplateCreatePayload] *)
Record TemplateCreatePayload := {
  create_name : string;
  create_folderId : option string;
  create_width : float;
  create_height : float;
  create_items : list CanvasItemPayload
}.

(** [{ ...req.body, folderId: (req.body?.folderId ?? null) }] *)
Definition with_folderId (body : TemplatePayload) : TemplatePayload :=
  {| payload_name := payload_name body;
     payload_folderId :=
       Some (nullish (default None (payload_folderId body)) None);
     payload_width := payload_width body;
     payload_height := payload_height body;
     payload_items := payload_items body |}.

(** [validateTemplatePayload] *)
Definition validateTemplatePayload (payload : TemplatePayload) : bool :=
  bool_decide (is_Some (payload_name payload))
  && bool_decide (is_Some (payload_width payload))
  && bool_decide (is_Some (payload_height payload))
  && bool_decide (is_Some (payload_items payload))
  && bool_decide (is_Some (payload_folderId payload)).

(** The payload at the type the guard narrows it to:
    [const { name, folderId, width, height, items } = payload]. *)
Definition narrowed (payload : TemplatePayload) : option TemplateCreatePayload :=
  match payload_name payload, payload_folderId payload,
        payload_width payload, payload_height payload,
        payload_items payload with
  | Some name, Some folderId, Some width, Some height, Some items =>
      Some {| create_name := name; create_folderId := folderId;
              create_width := width; create_height := height;
              create_items := items |}
  | _, _, _, _, _ => None
  end.

(** The answer of a template handler, by status code. *)
Inductive TemplateAnswer :=
| TemplateOk (template : TemplateResponse)        (* 200 *)
| TemplateCreated (template : TemplateResponse)   (* 201 *)
| TemplateNoContent                               (* 204 *)
| TemplateBadRequest                              (* 400 *)
| TemplateNotFound                                (* 404 *)
| TemplateServerError.                            (* 500 *)

(** [TemplateModel.findOne({ name, folderId })]: a template with this name
    in this folder, when there is one. The code does not say which one is
    found when there are several; here it is the first in the enumeration
    of the collection. *)
Definition findOne (store : Templates) (name : string)
    (folderId : option string) : option (string * Template) :=
  head (filter (λ d : string * Template,
                  tpl_name d.2 = name ∧ tpl_folderId d.2 = folderId)
          (map_to_list store)).

(** [existing.set({ width, height, items, fields })] *)
Definition set_content (existing : Template) (width height : float)
    (items : list CanvasItemPayload) (fields : list TemplateFieldPayload)
  : Template :=
  {| tpl_name := tpl_name existing; tpl_folderId := tpl_folderId existing;
     tpl_width := width; tpl_height := height; tpl_items := items;
     tpl_role := tpl_role existing; tpl_fields := fields |}.

(** [POST /api/templates]: the answer and the template collection after
    it. [create] and [save] validate the document against the schema and
    throw when it fails. *)
Definition postTemplate (store : Templates) (body : TemplatePayload)
  : TemplateAnswer * Templates :=
  let payload := with_folderId body in
  if negb (validateTemplatePayload payload) then (TemplateBadRequest, store)
  else
    match narrowed payload with
    | None => (TemplateBadRequest, store)
    | Some p =>
        let extractedFields := extractFieldsFromItems (create_items p) in
        match findOne store (create_name p)
                (nullish (create_folderId p) None) with
        | Some (id, existing) =>
            let nextFields :=
              if negb (length extractedFields =? 0) then extractedFields
              else tpl_fields existing in
            let saved :=
              set_content existing (create_width p) (create_height p)
                (create_items p) nextFields in
            if valid_template saved
            then (TemplateOk (mapTemplate id saved), <[id := saved]> store)
            else (TemplateServerError, store)
        | None =>
            let template :=
              {| tpl_name := create_name p;
                 tpl_folderId := nullish (create_folderId p) None;
                 tpl_width := create_width p;
                 tpl_height := create_height p;
                 tpl_items := create_items p;
                 tpl_role := draft;
                 tpl_fields := extractedFields |} in
            if valid_template template
            then
              let '(id, store') := create store template in
              (TemplateCreated (mapTemplate id template), store')
            else (TemplateServerError, store)
        end
    end.

(** [PUT /api/templates/:id]: [payload.items] is an array here, so the
    fields are extracted from it; [findByIdAndUpdate] sets the given paths
    of the document with this id, without validation, and gives the
    document after the update, or [null] when there is none. *)
Definition putTemplate (store : Templates) (id : string)
    (body : TemplatePayload) : TemplateAnswer * Templates :=
  let payload := with_folderId body in
  if negb (validateTemplatePayload payload) then (TemplateBadRequest, store)
  else
    match narrowed payload with
    | None => (TemplateBadRequest, store)
    | Some p =>
        let extractedFields := extractFieldsFromItems (create_items p) in
        match store !! id with
        | None => (TemplateNotFound, store)
        | Some old =>
            let updated :=
              {| tpl_name := create_name p;
                 tpl_folderId := nullish (create_folderId p) None;
                 tpl_width := create_width p;
                 tpl_height := create_height p;
                 tpl_items := create_items p;
                 tpl_role := tpl_role old;
                 tpl_fields :=
                   if negb (length extractedFields =? 0) then extractedFields
                   else tpl_fields old |} in
            (TemplateOk (mapTemplate id updated), <[id := updated]> store)
        end
    end.

(** [DELETE /api/templates/:id] *)
Definition deleteTemplate (store : Templates) (id : string)
  : TemplateAnswer * Templates :=
  (TemplateNoContent, delete id store).

(** [POST /api/templates/:id/fields/refresh]: [save] validates the
    document as in [POST /api/templates]. *)
Definition refreshFields (store : Templates) (id : string)
  : TemplateAnswer * Templates :=
  match store !! id with
  | None => (TemplateNotFound, store)
  | Some template =>
      let fields := extractFieldsFromItems (tpl_items template) in
      let saved :=
        {| tpl_name := tpl_name template;
           tpl_folderId := tpl_folderId template;
           tpl_width := tpl_width template;
           tpl_height := tpl_height template;
           tpl_items := tpl_items template;
           tpl_role := tpl_role template;
           tpl_fields := fields |} in
      if valid_template saved
      then (TemplateOk (mapTemplate id saved), <[id := saved]> store)
      else (TemplateServerError, store)
  end.

(** The template in the body of a 200 or 201 answer. *)
Definition answered (response : TemplateAnswer) : option TemplateResponse :=
  match response with
  | TemplateOk template | TemplateCreated template => Some template
  | _ => None
  end.

(** No two templates have the same name in the same folder. *)
Definition unique_names (store : Templates) : Prop :=
  ∀ id1 id2 t1 t2,
    store !! id1 = Some t1 → store !! id2 = Some t2 →
    tpl_name t1 = tpl_name t2 → tpl_folderId t1 = tpl_folderId t2 →
    id1 = id2.

(** The fields cover the placeholders: every placeholder name in a scanned
    item is the name of a field. *)
Definition covered (template : Template) : Prop :=
  ∀ item w, item ∈ tpl_items template → scanned item = true →
            w ∈ names (item_content item) →
            w ∈ field_name <$> tpl_fields template.

(** The four members the guard asks for. *)
Definition complete (body : TemplatePayload) : Prop :=
  is_Some (payload_name body) ∧ is_Some (payload_width body)
  ∧ is_Some (payload_height body) ∧ is_Some (payload_items body).

(** The ways [POST /api/templates] can go. *)
Inductive post_case (store : Templates) (body : TemplatePayload)
  : TemplateAnswer * Templates → Prop :=
| post_unchanged response :
    answered response = None → post_case store body (response, store)
| post_saved p id existing saved :
    narrowed (with_folderId body) = Some p →
    store !! id = Some existing →
    tpl_name existing = create_name p →
    tpl_folderId existing = create_folderId p →
    saved = set_content existing (create_width p) (create_height p)
              (create_items p)
              (if negb (length (extractFieldsFromItems (create_items p)) =? 0)
               then extractFieldsFromItems (create_items p)
               else tpl_fields existing) →
    valid_template saved = true →
    post_case store body (TemplateOk (mapTemplate id saved), <[id := saved]> store)
| post_created p id template :
    narrowed (with_folderId body) = Some p →
    (∀ id' t, store !! id' = Some t →
              ¬ (tpl_name t = create_name p
                 ∧ tpl_folderId t = create_folderId p)) →
    store !! id = None →
    template = {| tpl_name := create_name p;
                  tpl_folderId := create_folderId p;
                  tpl_width := create_width p;
                  tpl_height := create_height p;
                  tpl_items := create_items p;
                  tpl_role := draft;
                  tpl_fields := extractFieldsFromItems (create_items p) |} →
    valid_template template = true →
    post_case store body (TemplateCreated (mapTemplate id template),
               <[id := template]> store).

(** A body for the examples. *)
Definition example_body (name : string) (content : string) : TemplatePayload :=
  {| payload_name := Some name; payload_folderId := None;
     payload_width := Some 100%float; payload_height := Some 50%float;
     payload_items := Some [text_item "a" content] |}.

End TemplateApi.

(** ** The label handler: [POST /api/labels] *)
Module Labels.

Import Js Merge.

(** A label document: [{ context, productType, text }] ([createdAt], a
    time stamp, is left out). *)
Record Label := {
  label_context : string;
  label_productType : string;
  label_text : string
}.

(** The label collection: the documents by their [_id]. *)
Abbreviation LabelStore := (gmap string Label).

(** [labelSchema]: the three strings are required. *)
Definition valid_label (label : Label) : bool :=
  Schema.required (label_context label)
  && Schema.required (label_productType label)
  && Schema.required (label_text label).

(** [req.body]: [context] and [productType]; [None] stands for a member
    that is missing (or [null]). *)
Record LabelBody := {
  body_context : option string;
  body_productType : option string
}.

(** [generateLabelContent]: [apiKey] is [process.env.GEMINI_API_KEY] and
    [responseText] the [text] of the answer of the model to the prompt,
    [None] when it is [undefined]; the result is [None] when the function
    throws. *)
Definition generateLabelContent (apiKey : option string)
    (responseText : option string) : option string :=
  match apiKey with
  | None => None
  | Some apiKey =>
      if negb (truthy (str apiKey)) then None
      else
        match trim <$> responseText with
        | None => None
        | Some text => if negb (truthy (str text)) then None else Some text
        end
  end.

(** The answer of the handler, by status code. *)
Inductive LabelAnswer :=
| LabelCreated (id : string) (label : Label)   (* 201 *)
| LabelBadRequest                              (* 400 *)
| LabelServerError.                            (* 500 *)

(** [POST /api/labels]: the answer and the label collection after it. *)
Definition postLabel (apiKey : option string) (responseText : option string)
    (labels : LabelStore) (body : LabelBody) : LabelAnswer * LabelStore :=
  match body_context body, body_productType body with
  | Some context, Some productType =>
      if negb (truthy (str context)) || negb (truthy (str productType))
      then (LabelBadRequest, labels)
      else
        match generateLabelContent apiKey responseText with
        | None => (LabelServerError, labels)
        | Some text =>
            let label :=
              {| label_context := context;
                 label_productType := productType;
                 label_text := text |} in
            let id := fresh (dom labels) in
            (LabelCreated id label, <[id := label]> labels)
        end
  | _, _ => (LabelBadRequest, labels)
  end.

End Labels.

(** * Part II: properties *)

Import Placeholder Fields Js Substitution FolderTree Merge.

(** ** Strings *)

Lemma str_app_nil_l (t : string) : "" +:+ t = t.
Proof. reflexivity. Qed.

Lemma str_app_cons (c : ascii) (s t : string) :
  String c s +:+ t = String c (s +:+ t).
Proof. reflexivity. Qed.

Lemma str_app_nil_r (s : string) : s +:+ "" = s.
Proof. induction s as [|c s IH]; [done|]. by rewrite str_app_cons, IH. Qed.

Lemma str_app_assoc (s t u : string) : (s +:+ t) +:+ u = s +:+ t +:+ u.
Proof. induction s as [|c s IH]; [done|]. by rewrite !str_app_cons, IH. Qed.

Lemma str_length_app (s t : string) :
  String.length (s +:+ t) = String.length s + String.length t.
Proof.
  induction s as [|c s IH]; [done|]. rewrite str_app_cons. simpl. by rewrite IH.
Qed.

Lemma str_join_cons (s : string) (l : list string) :
  Str.join (s :: l) = s +:+ Str.join l.
Proof. reflexivity. Qed.

Lemma str_join_app (l k : list string) : Str.join (l ++ k) = Str.join l +:+ Str.join k.
Proof.
  induction l as [|s l IH]; simpl; [done|]. by rewrite IH, str_app_assoc.
Qed.

(** ** The placeholder grammar and the scan *)

Lemma length_token w : String.length (token w) = String.length w + 4.
Proof. unfold token. rewrite !str_length_app. simpl. lia. Qed.

Lemma literal_Some p s rest : literal p s = Some rest ↔ s = p +:+ rest.
Proof.
  revert s. induction p as [|a p IH]; intros s; simpl.
  - split; [by intros [= ->]|by intros ->].
  - destruct s as [|b s]; [done|].
    destruct (Ascii.eqb_spec a b) as [->|Hne].
    + rewrite IH. split; [by intros ->|by intros [= ->]].
    + split; [done|]. intros [= -> _]. done.
Qed.

Lemma literal_app p rest : literal p (p +:+ rest) = Some rest.
Proof. by apply literal_Some. Qed.

Lemma match_name_cons c s :
  match_name (String c s) =
    if is_word c then
      match match_name s with
      | Some (w, rest) => Some (String c w, rest)
      | None => (λ rest, (String c "", rest)) <$> literal "}}" s
      end
    else None.
Proof. reflexivity. Qed.

Lemma match_name_sound s w rest :
  match_name s = Some (w, rest) → is_name w ∧ s = w +:+ "}}" +:+ rest.
Proof.
  revert w rest. induction s as [|c s IH]; intros w rest; [done|].
  rewrite match_name_cons. destruct (is_word c) eqn:Hc; [|done].
  destruct (match_name s) as [[w' r']|].
  - intros [= <- <-]. destruct (IH _ _ eq_refl) as [[_ Hw] ->].
    split; [split; [done|]|done]. simpl. by rewrite Hc, Hw.
  - destruct (literal "}}" s) as [r|] eqn:E; [|done].
    intros [= <- <-]. apply literal_Some in E as ->.
    split; [split; [done|]|done]. simpl. by rewrite Hc.
Qed.

Lemma match_name_complete w rest :
  is_name w → match_name (w +:+ "}}" +:+ rest) = Some (w, rest).
Proof.
  intros [Hne Hw]. induction w as [|c w IH]; [done|].
  simpl in Hw. apply andb_prop in Hw as [Hc Hw].
  change (String c w +:+ "}}" +:+ rest) with (String c (w +:+ "}}" +:+ rest)).
  rewrite match_name_cons, Hc. destruct w as [|c' w].
  - reflexivity.
  - by rewrite IH.
Qed.

Lemma match_name_spec s w rest :
  match_name s = Some (w, rest) ↔ is_name w ∧ s = w +:+ "}}" +:+ rest.
Proof.
  split; [apply match_name_sound|].
  intros [Hw ->]. by apply match_name_complete.
Qed.

(** [exec] recognises exactly [{{name}}] at the head of the string. *)
Lemma exec_spec s w rest :
  exec s = Some (w, rest) ↔ is_name w ∧ s = token w +:+ rest.
Proof.
  unfold exec, token. split.
  - destruct (literal "{{" s) as [r|] eqn:E; [|done]. simpl.
    intros [Hw ->]%match_name_spec. apply literal_Some in E as ->.
    split; [done|]. by rewrite !str_app_assoc.
  - intros [Hw ->]. rewrite !str_app_assoc, literal_app. simpl.
    by apply match_name_complete.
Qed.

Lemma pieces_nil : pieces "" = [].
Proof. by simp pieces. Qed.

Lemma pieces_cons c s :
  pieces (String c s) =
    match exec (String c s) with
    | Some (w, rest) => Hole w :: pieces rest
    | None => Lit c :: pieces s
    end.
Proof.
  remember (String c s) as s0 eqn:E. revert c s E.
  funelim (pieces s0); intros c' s'' E; simplify_eq.
  - by rewrite e.
  - by rewrite e.
Qed.

Lemma pieces_token w rest :
  is_name w → pieces (token w +:+ rest) = Hole w :: pieces rest.
Proof.
  intros Hw. assert (exec (token w +:+ rest) = Some (w, rest)) as E
    by by apply exec_spec.
  revert E. unfold token. rewrite !str_app_cons. intros E.
  by rewrite pieces_cons, E.
Qed.

Lemma is_word_lbrace : is_word "{" = false.
Proof. reflexivity. Qed.

(** A name followed by its closing braces cannot run into a later
    opening [{{]: the match ends before it. *)
Lemma name_before_open w rest pre x :
  w ≠ "" → all_word w = true →
  w +:+ "}}" +:+ rest = pre +:+ "{{" +:+ x →
  ∃ pre', pre = w +:+ "}}" +:+ pre' ∧ rest = pre' +:+ "{{" +:+ x.
Proof.
  revert pre. induction w as [|c w IH]; intros pre Hne Hw; [done|].
  simpl in Hw. apply andb_prop in Hw as [Hc Hw].
  rewrite str_app_cons. destruct pre as [|a pre].
  { rewrite str_app_nil_l, !str_app_cons. intros [= -> _].
    by rewrite is_word_lbrace in Hc. }
  rewrite str_app_cons. intros [= <- E]. destruct w as [|c2 w].
  - rewrite str_app_nil_l, !str_app_cons, str_app_nil_l in E.
    destruct pre as [|b pre]; [by inversion E|].
    rewrite str_app_cons in E. injection E as <- E.
    destruct pre as [|b pre]; [by inversion E|].
    rewrite str_app_cons in E. injection E as <- E.
    exists pre. by rewrite !str_app_cons.
  - destruct (IH pre) as (pre' & -> & ->); [done..|].
    exists pre'. by rewrite !str_app_cons.
Qed.

(** A match that starts before a later token ends before that token. *)
Lemma exec_before_token pre w post w' rest :
  pre ≠ "" →
  exec (pre +:+ token w +:+ post) = Some (w', rest) →
  ∃ pre', pre = token w' +:+ pre' ∧ rest = pre' +:+ token w +:+ post.
Proof.
  intros Hpre [[Hne Hw'] E]%exec_spec. revert E. unfold token.
  rewrite !str_app_assoc, !str_app_cons, !str_app_nil_l.
  destruct pre as [|a pre]; [done|]. rewrite str_app_cons. intros [= -> E].
  destruct pre as [|a pre].
  { rewrite str_app_nil_l in E. injection E as E.
    destruct w' as [|c w']; [done|]. rewrite str_app_cons in E.
    injection E as <- _.
    change (is_word "{" && all_word w' = true) in Hw'.
    by rewrite is_word_lbrace in Hw'. }
  rewrite str_app_cons in E. injection E as -> E.
  change (String "{" (String "{" (w +:+ "}}" +:+ post)))
    with ("{{" +:+ w +:+ "}}" +:+ post) in E.
  symmetry in E. apply name_before_open in E as (pre' & -> & ->); [|done..].
  exists pre'. split; [|reflexivity].
  by rewrite !str_app_cons, str_app_nil_l, !str_app_assoc.
Qed.

(** The scan is compositional at every token: what precedes it and what
    follows it are scanned on their own. *)
Lemma pieces_app_token pre w post :
  is_name w →
  pieces (pre +:+ token w +:+ post) = pieces pre ++ Hole w :: pieces post.
Proof.
  intros Hw. remember (String.length pre) as n eqn:Hn. revert pre Hn.
  induction n as [n IH] using lt_wf_ind. intros pre ->.
  destruct pre as [|c pre].
  { by rewrite str_app_nil_l, pieces_nil, pieces_token. }
  rewrite str_app_cons, !pieces_cons, <-str_app_cons.
  destruct (exec (String c pre +:+ _ +:+ _)) as [[w' rest]|] eqn:E.
  - pose proof E as [Hw' _]%exec_spec.
    apply exec_before_token in E as (pre' & Epre & ->); [|done].
    assert (exec (String c pre) = Some (w', pre')) as ->
      by (rewrite Epre; by apply exec_spec).
    rewrite (IH (String.length pre')); [done| |done].
    rewrite Epre, str_length_app. unfold token. rewrite !str_length_app.
    simpl. lia.
  - destruct (exec (String c pre)) as [[w' r]|] eqn:E'.
    + apply exec_spec in E' as [Hw' E']. rewrite E', str_app_assoc in E.
      assert (exec (token w' +:+ r +:+ token w +:+ post)
              = Some (w', r +:+ token w +:+ post)) as E''
        by by apply exec_spec.
      congruence.
    + rewrite (IH (String.length pre)); [done|simpl; lia|done].
Qed.

(** Induction along the scan. *)
Lemma pieces_ind (P : string → list piece → Prop) :
  P "" [] →
  (∀ w rest, is_name w → P rest (pieces rest) →
             P (token w +:+ rest) (Hole w :: pieces rest)) →
  (∀ c s, exec (String c s) = None → P s (pieces s) →
          P (String c s) (Lit c :: pieces s)) →
  ∀ s, P s (pieces s).
Proof.
  intros Hnil Hhole Hlit s.
  remember (String.length s) as n eqn:Hn. revert s Hn.
  induction n as [n IH] using lt_wf_ind. intros s ->.
  destruct s as [|c s]; [by rewrite pieces_nil|].
  rewrite pieces_cons. destruct (exec (String c s)) as [[w rest]|] eqn:E.
  - pose proof (exec_length _ _ _ E) as Hlen.
    apply exec_spec in E as [Hw ->]. apply Hhole; [done|].
    by apply (IH (String.length rest)).
  - apply Hlit; [done|]. apply (IH (String.length s)); [simpl; lia|done].
Qed.

(** The pieces partition the string: putting every placeholder back
    where it was matched gives the string again. *)
Lemma replace_token (s : string) : replace s token = s.
Proof.
  unfold replace.
  apply (pieces_ind (λ s ps, Str.join (render token <$> ps) = s)).
  - done.
  - intros w rest _ IH. rewrite fmap_cons. simpl. by rewrite IH.
  - intros c s' _ IH. rewrite fmap_cons. simpl. by rewrite IH.
Qed.

Lemma matches_from_lit i c ps :
  matches_from i (Lit c :: ps) = matches_from (S i) ps.
Proof. reflexivity. Qed.

Lemma matches_from_hole i w ps :
  matches_from i (Hole w :: ps) =
    (i, w) :: matches_from (i + String.length (token w)) ps.
Proof. reflexivity. Qed.

Lemma matches_from_app i ps qs :
  matches_from i (ps ++ qs) =
    matches_from i ps
    ++ matches_from (i + String.length (Str.join (raw <$> ps))) qs.
Proof.
  revert i. induction ps as [|[c|w] ps IH]; intros i.
  - simpl. by rewrite Nat.add_0_r.
  - rewrite <-app_comm_cons, fmap_cons, str_join_cons, str_length_app.
    rewrite !matches_from_lit, IH. do 2 f_equal.
    change (String.length (raw (Lit c))) with 1. lia.
  - rewrite <-app_comm_cons, fmap_cons, str_join_cons, str_length_app.
    rewrite !matches_from_hole, IH. change (raw (Hole w)) with (token w).
    rewrite <-app_comm_cons. do 3 f_equal. lia.
Qed.

Lemma matches_from_sound s i0 i w :
  (i, w) ∈ matches_from i0 (pieces s) →
  is_name w ∧
  ∃ pre post, s = pre +:+ token w +:+ post ∧ i = i0 + String.length pre.
Proof.
  revert i0 i w.
  apply (pieces_ind (λ s ps, ∀ i0 i w, (i, w) ∈ matches_from i0 ps →
    is_name w ∧
    ∃ pre post, s = pre +:+ token w +:+ post ∧ i = i0 + String.length pre)).
  - by intros i0 i w ?%elem_of_nil.
  - intros w' rest Hw' IH i0 i w. rewrite matches_from_hole.
    intros [[= -> ->]|Hin]%elem_of_cons.
    + split; [done|]. exists "", rest. by rewrite Nat.add_0_r.
    + apply IH in Hin as [Hw (pre & post & -> & ->)]. split; [done|].
      exists (token w' +:+ pre), post.
      rewrite str_app_assoc, str_length_app. split; [done|lia].
  - intros c s' _ IH i0 i w. rewrite matches_from_lit.
    intros Hin. apply IH in Hin as [Hw (pre & post & -> & ->)].
    split; [done|]. exists (String c pre), post. simpl. split; [done|lia].
Qed.

Lemma matches_from_sorted ps i0 :
  Forall (λ m, i0 ≤ m.1) (matches_from i0 ps)
  ∧ StronglySorted lt (matches_from i0 ps).*1.
Proof.
  revert i0. induction ps as [|[c|w] ps IH]; intros i0.
  - split; constructor.
  - rewrite matches_from_lit. destruct (IH (S i0)) as [Hge Hs].
    split; [|done]. eapply Forall_impl; [done|]. simpl. lia.
  - rewrite matches_from_hole, fmap_cons.
    destruct (IH (i0 + String.length (token w))) as [Hge Hs].
    pose proof (length_token w) as Hlen.
    split.
    + constructor; [simpl; lia|]. eapply Forall_impl; [done|]. simpl. lia.
    + constructor; [done|]. apply Forall_fmap.
      eapply Forall_impl; [done|]. simpl. lia.
Qed.

Example pieces_example :
  pieces "a{{u}}b" = [Lit "a"; Hole "u"; Lit "b"].
Proof. vm_compute. reflexivity. Qed.

Lemma matchAll_spec (s : string) (i : nat) (w : string) :
  (i, w) ∈ matchAll s ↔
  is_name w ∧ ∃ pre post, s = pre +:+ token w +:+ post ∧ String.length pre = i.
Proof.
  unfold matchAll. split.
  - intros (Hw & pre & post & -> & ->)%matches_from_sound. eauto.
  - intros (Hw & pre & post & -> & <-).
    rewrite pieces_app_token, matches_from_app by done.
    apply elem_of_app. right.
    change (Str.join (raw <$> pieces pre)) with (replace pre token).
    rewrite replace_token, matches_from_hole. by left.
Qed.

Lemma names_holes i ps w : w ∈ (matches_from i ps).*2 ↔ Hole w ∈ ps.
Proof.
  revert i. induction ps as [|[c|w'] ps IH]; intros i.
  - simpl. by rewrite !elem_of_nil.
  - rewrite matches_from_lit, IH, elem_of_cons.
    split; [by right|by intros [?|?]].
  - rewrite matches_from_hole, fmap_cons, !elem_of_cons, IH. simpl.
    split; (intros [H|H]; [left|by right]); congruence.
Qed.

Lemma pieces_hole_name s w : Hole w ∈ pieces s ↔ w ∈ names s.
Proof. unfold names, matchAll. by rewrite names_holes. Qed.

(** C4. The placeholders the scan reports are exactly the occurrences of
    [{{name}}] with [name] one or more characters of [[A-Za-z0-9_]]: a
    match at index [i] with capture [w] is reported if and only if the
    text [{{w}}] stands at index [i]; the matches come in strictly
    increasing index order; field extraction reads the captures of these
    matches and substitution replaces these same matches; and the malformed
    markers [{{}}], an unterminated [{{abc], and names with a space or
    punctuation are not matched. *)
Theorem matchAll_exactly_grammar (s : string) :
  (∀ i w, (i, w) ∈ matchAll s ↔
          is_name w ∧
          ∃ pre post, s = pre +:+ token w +:+ post ∧ String.length pre = i)
  ∧ StronglySorted lt (matchAll s).*1
  ∧ (∀ w, w ∈ names s ↔ ∃ i, (i, w) ∈ matchAll s)
  ∧ (∀ w, Hole w ∈ pieces s ↔ ∃ i, (i, w) ∈ matchAll s)
  ∧ matchAll "{{}}" = [] ∧ matchAll "{{abc" = [] ∧ matchAll "{{" = []
  ∧ matchAll "{{a b}}" = [] ∧ matchAll "{{a-b}}" = []
  ∧ matchAll "{{a.b}} {{c}" = [].
Proof.
  assert (∀ w, w ∈ names s ↔ ∃ i, (i, w) ∈ matchAll s) as Hnames.
  { intros w. unfold names. rewrite list_elem_of_fmap. split.
    - intros ([i w'] & -> & Hin). by exists i.
    - intros [i Hin]. by exists (i, w). }
  split; [apply matchAll_spec|]. split; [apply matches_from_sorted|].
  split; [done|]. split; [|by vm_compute].
  intros w. by rewrite pieces_hole_name.
Qed.

(** ** Field extraction *)

Lemma first_occurrences_cons seen n i occ :
  first_occurrences seen ((n, i) :: occ) =
    if bool_decide (n ∈ seen) then first_occurrences seen occ
    else (n, i) :: first_occurrences (seen ++ [n]) occ.
Proof. reflexivity. Qed.

Lemma first_occurrences_names seen occ n :
  n ∈ (first_occurrences seen occ).*1 ↔ n ∈ occ.*1 ∧ n ∉ seen.
Proof.
  revert seen. induction occ as [|[m j] occ IH]; intros seen.
  - simpl. rewrite elem_of_nil. tauto.
  - rewrite first_occurrences_cons, (fmap_cons fst), elem_of_cons. simpl.
    case_bool_decide as Hm.
    + rewrite IH. split; [tauto|]. intros [[->|?] ?]; tauto.
    + rewrite fmap_cons, elem_of_cons, IH, elem_of_app, list_elem_of_singleton.
      simpl. split.
      * intros [->|[? ?]]; tauto.
      * intros [[->|?] ?]; [tauto|]. destruct (decide (n = m)); tauto.
Qed.

Lemma first_occurrences_NoDup seen occ :
  NoDup (first_occurrences seen occ).*1.
Proof.
  revert seen. induction occ as [|[m j] occ IH]; intros seen.
  - constructor.
  - rewrite first_occurrences_cons.
    case_bool_decide as Hm; [done|]. rewrite fmap_cons. constructor; [|done].
    rewrite first_occurrences_names, elem_of_app, list_elem_of_singleton.
    simpl. tauto.
Qed.

Lemma first_occurrences_first seen occ n i :
  (n, i) ∈ first_occurrences seen occ →
  ∃ l1 l2, occ = l1 ++ (n, i) :: l2 ∧ n ∉ l1.*1.
Proof.
  revert seen. induction occ as [|[m j] occ IH]; intros seen.
  - by intros ?%elem_of_nil.
  - rewrite first_occurrences_cons. intros Hin.
    assert (n ≠ m → (n, i) ∈ first_occurrences seen occ
                     ∨ (n, i) ∈ first_occurrences (seen ++ [m]) occ →
            ∃ l1 l2, (m, j) :: occ = l1 ++ (n, i) :: l2 ∧ n ∉ l1.*1) as Hrec.
    { intros Hne [(l1 & l2 & -> & Hl1)%IH|(l1 & l2 & -> & Hl1)%IH];
        exists ((m, j) :: l1), l2; (split; [done|]);
        rewrite fmap_cons, not_elem_of_cons; tauto. }
    case_bool_decide as Hm.
    + apply Hrec; [|by left]. intros ->.
      assert (m ∈ (first_occurrences seen occ).*1) as Hn.
      { apply list_elem_of_fmap. by exists (m, i). }
      apply first_occurrences_names in Hn. tauto.
    + apply elem_of_cons in Hin as [[= -> ->]|Hin].
      { exists [], occ. split; [done|]. apply not_elem_of_nil. }
      apply Hrec; [|by right]. intros ->.
      assert (m ∈ (first_occurrences (seen ++ [m]) occ).*1) as Hn.
      { apply list_elem_of_fmap. by exists (m, i). }
      apply first_occurrences_names in Hn as [_ Hn]. apply Hn.
      apply elem_of_app. right. by apply list_elem_of_singleton.
Qed.

Lemma foldl_step map occ :
  foldl step map occ =
    map ++ ((λ o, (o.1, field_of o)) <$> first_occurrences map.*1 occ).
Proof.
  revert map. induction occ as [|[n i] occ IH]; intros map; simpl.
  - by rewrite app_nil_r.
  - rewrite IH. unfold step, JsMap.set, JsMap.has. simpl.
    case_bool_decide as Hn; simpl; [done|].
    by rewrite fmap_app, <-app_assoc.
Qed.

Lemma extract_as_fold items :
  extractFieldsFromItems items =
    JsMap.values (foldl step JsMap.empty (occurrences items)).
Proof.
  unfold extractFieldsFromItems. f_equal. generalize (@JsMap.empty TemplateFieldPayload).
  induction items as [|item items IH]; intros map; [done|].
  unfold occurrences. rewrite bind_cons, foldl_app. fold (occurrences items).
  simpl. rewrite IH. f_equal. unfold scanned.
  destruct (decide (item_type item = TEXT)) as [Ht|Ht].
  - rewrite (bool_decide_eq_false_2 (item_type item ≠ TEXT)) by tauto.
    rewrite (bool_decide_eq_true_2 _ Ht). simpl.
    destruct (falsy (item_content item)); simpl; [done|].
    by rewrite foldl_fmap.
  - rewrite (bool_decide_eq_true_2 (item_type item ≠ TEXT)) by done.
    by rewrite (bool_decide_eq_false_2 _ Ht).
Qed.

(** The extracted fields are the first occurrences, one field each. *)
Lemma extract_first_occurrences items :
  extractFieldsFromItems items =
    field_of <$> first_occurrences [] (occurrences items).
Proof.
  rewrite extract_as_fold, foldl_step. unfold JsMap.values, JsMap.empty.
  simpl. by rewrite <-list_fmap_compose.
Qed.

Lemma extract_names items :
  field_name <$> extractFieldsFromItems items =
    (first_occurrences [] (occurrences items)).*1.
Proof. by rewrite extract_first_occurrences, <-list_fmap_compose. Qed.

Lemma occurrences_filter items :
  occurrences (filter (λ item, item_type item = TEXT) items) =
    occurrences items.
Proof.
  unfold occurrences. induction items as [|item items IH]; [done|].
  rewrite filter_cons. case_decide as Ht.
  - by rewrite !bind_cons, IH.
  - rewrite bind_cons, IH. unfold scanned.
    by rewrite (bool_decide_eq_false_2 _ Ht).
Qed.

(** C3. Field extraction returns one field per distinct placeholder name,
    in order of first occurrence (items in list order, placeholders from
    left to right in an item); a field's label is its name and its
    [targetItemId] is the id of the first item the name occurs in; only
    TEXT items with a non-empty content are scanned, so items of another
    type change nothing; a name that occurs again gives no second field;
    and a list without placeholders, the empty list included, gives no
    field. *)
Theorem extractFieldsFromItems_first_occurrences
    (items : list CanvasItemPayload) :
  let fields := extractFieldsFromItems items in
  let occ := occurrences items in
  fields = field_of <$> first_occurrences [] occ
  ∧ NoDup (field_name <$> fields)
  ∧ (∀ n, n ∈ field_name <$> fields ↔ n ∈ occ.*1)
  ∧ (∀ f, f ∈ fields →
       field_label f = field_name f
       ∧ ∃ l1 l2, occ = l1 ++ (field_name f, field_targetItemId f) :: l2
                  ∧ field_name f ∉ l1.*1)
  ∧ extractFieldsFromItems
      (filter (λ item, item_type item = TEXT) items) = fields
  ∧ (occ = [] → fields = [])
  ∧ extractFieldsFromItems [] = [].
Proof.
  simpl. split; [apply extract_first_occurrences|].
  split; [rewrite extract_names; apply first_occurrences_NoDup|].
  split.
  { intros n. rewrite extract_names, first_occurrences_names.
    rewrite elem_of_nil. tauto. }
  split.
  { intros f. rewrite extract_first_occurrences.
    intros ([n i] & -> & Hin)%list_elem_of_fmap. split; [done|].
    by apply first_occurrences_first in Hin. }
  split.
  { by rewrite !extract_first_occurrences, occurrences_filter. }
  split; [|done].
  intros Hocc. by rewrite extract_first_occurrences, Hocc.
Qed.

(** The example of the specification. *)
Example extractFieldsFromItems_example :
  extractFieldsFromItems
    [ text_item "a" "Hi {{user}}, {{user}} again"; text_item "b" "{{date}}" ]
  = [ {| field_name := "user"; field_label := "user";
         field_targetItemId := "a" |};
      {| field_name := "date"; field_label := "date";
         field_targetItemId := "b" |} ].
Proof. vm_compute. reflexivity. Qed.

(** ** Row substitution *)

Lemma replace_nil f : replace "" f = "".
Proof. unfold replace. by rewrite pieces_nil. Qed.

Lemma replace_app_token pre w post f :
  is_name w →
  replace (pre +:+ token w +:+ post) f
  = replace pre f +:+ f w +:+ replace post f.
Proof.
  intros Hw. unfold replace.
  by rewrite pieces_app_token, fmap_app, str_join_app, fmap_cons.
Qed.

(** The result depends on the callback only at the names that occur. *)
Lemma replace_ext s f g :
  (∀ w, w ∈ names s → f w = g w) → replace s f = replace s g.
Proof.
  intros H. unfold replace. f_equal. apply list_fmap_ext.
  intros i [c|w] Hi; [done|]. simpl. apply H, pieces_hole_name.
  by eapply list_elem_of_lookup_2.
Qed.

Lemma names_occurrence s w :
  w ∈ names s ↔ is_name w ∧ ∃ pre post, s = pre +:+ token w +:+ post.
Proof.
  unfold names. rewrite list_elem_of_fmap. split.
  - intros ([i w'] & -> & Hin).
    apply matchAll_spec in Hin as (? & pre & post & ? & ?). eauto.
  - intros (Hw & pre & post & ->). exists (String.length pre, w).
    split; [done|]. apply matchAll_spec. eauto.
Qed.

Lemma no_placeholder_names s : no_placeholder s ↔ names s = [].
Proof.
  split.
  - intros H. destruct (names s) as [|w l] eqn:E; [done|].
    assert (w ∈ names s) as (Hw & pre & post & ->)%names_occurrence
      by (rewrite E; by left).
    by destruct (H pre w post).
  - intros H pre w post Hw ->.
    assert (w ∈ names (pre +:+ token w +:+ post)) as Hin
      by (apply names_occurrence; eauto).
    rewrite H in Hin. by apply elem_of_nil in Hin.
Qed.

(** A text without placeholders is left as it is. *)
Lemma replace_no_placeholder s f : no_placeholder s → replace s f = s.
Proof.
  intros H%no_placeholder_names. rewrite <-(replace_token s) at 2.
  apply replace_ext. intros w. rewrite H. by intros ?%elem_of_nil.
Qed.

Lemma no_placeholder_cons c s t :
  exec (String c (s +:+ t)) = None →
  no_placeholder s → no_placeholder (String c s).
Proof.
  intros E H pre w post Hw Heq. destruct pre as [|a pre].
  - rewrite str_app_nil_l in Heq.
    assert (exec (String c (s +:+ t)) = Some (w, post +:+ t)) as E'.
    { apply exec_spec. split; [done|].
      by rewrite <-str_app_cons, Heq, str_app_assoc. }
    congruence.
  - rewrite str_app_cons in Heq. injection Heq as -> ->.
    by destruct (H pre w post).
Qed.

Lemma substituted_cons row c s out :
  exec (String c s) = None →
  substituted row s out → substituted row (String c s) (String c out).
Proof.
  intros E Hs. inversion Hs as [s' Hfree|pre w post out' Hfree Hw Hpost];
    subst.
  - apply substituted_plain. apply (no_placeholder_cons c out ""); [|done].
    by rewrite str_app_nil_r.
  - rewrite <-!str_app_cons. apply substituted_token; [|done..].
    by apply (no_placeholder_cons c pre (token w +:+ post)).
Qed.

Lemma no_placeholder_nil : no_placeholder "".
Proof.
  intros pre w post _ H. apply (f_equal String.length) in H.
  rewrite !str_length_app, length_token in H. simpl in H. lia.
Qed.

(** The callback replacement is the substitution of the specification. *)
Lemma replace_substituted row s : substituted row s (replace s (value_of row)).
Proof.
  unfold replace.
  apply (pieces_ind
    (λ s ps, substituted row s (Str.join (render (value_of row) <$> ps)))).
  - apply substituted_plain, no_placeholder_nil.
  - intros w rest Hw IH. rewrite fmap_cons, str_join_cons.
    rewrite <-(str_app_nil_l (token w +:+ rest)).
    rewrite <-(str_app_nil_l (render _ _ +:+ _)).
    apply substituted_token; [apply no_placeholder_nil|done..].
  - intros c s' E IH. rewrite fmap_cons, str_join_cons.
    by apply substituted_cons.
Qed.

Lemma get_string row key :
  match get row key with str s => s | _ => "" end = value_of row key.
Proof.
  unfold get, value_of. destruct (row !! key); [done|]. by case_bool_decide.
Qed.

Lemma replacePlaceholders_replace value row :
  replacePlaceholders value row = replace value (value_of row).
Proof.
  unfold replacePlaceholders, Fields.falsy. case_bool_decide as Hv.
  - by rewrite Hv, replace_nil.
  - apply replace_ext. intros w _. apply get_string.
Qed.

(** The relation of the specification determines its result. *)
Lemma substituted_unique row s out :
  substituted row s out → out = replace s (value_of row).
Proof.
  induction 1 as [s Hs|pre w post out Hpre Hw _ IH].
  - by rewrite replace_no_placeholder.
  - by rewrite replace_app_token, replace_no_placeholder, IH.
Qed.

Lemma replacePlaceholders_ext value row row' :
  (∀ w, w ∈ names value → row !! w = row' !! w) →
  replacePlaceholders value row = replacePlaceholders value row'.
Proof.
  intros H. rewrite !replacePlaceholders_replace. apply replace_ext.
  intros w Hw. unfold value_of. by rewrite (H w Hw).
Qed.

Lemma replacePlaceholders_app_token pre w post row :
  is_name w →
  replacePlaceholders (pre +:+ token w +:+ post) row
  = replacePlaceholders pre row +:+ value_of row w
    +:+ replacePlaceholders post row.
Proof.
  intros Hw. rewrite !replacePlaceholders_replace. by apply replace_app_token.
Qed.

Lemma is_name_name : is_name "name".
Proof. by split. Qed.

Lemma is_name___name : is_name "__name".
Proof. by split. Qed.

(** C5. Row substitution returns as many items, in the same order; an item
    that is not TEXT is returned as it is; a TEXT item keeps every
    attribute but its content, and its new content is the old one with
    every placeholder occurrence replaced by the row's value for its name,
    or by the empty string when the row has none (there is one such text);
    a content without placeholders is returned unchanged. *)
Theorem cloneItemsWithData_substitutes
    (items : list CanvasItemPayload) (row : MergeRow) :
  let out := cloneItemsWithData items row in
  length out = length items
  ∧ (∀ i item, items !! i = Some item →
      ∃ item', out !! i = Some item'
        ∧ (item_type item ≠ TEXT → item' = item)
        ∧ (item_type item = TEXT →
             same_attributes item' item
             ∧ substituted row (item_content item) (item_content item')
             ∧ (∀ out, substituted row (item_content item) out →
                       out = item_content item')
             ∧ (no_placeholder (item_content item) →
                item_content item' = item_content item)))
  ∧ (∀ w, row !! w = None → value_of row w = "").
Proof.
  simpl. unfold cloneItemsWithData. split; [apply length_fmap|]. split.
  - intros i item Hi. rewrite list_lookup_fmap, Hi. simpl.
    eexists; split; [done|]. case_bool_decide as Ht.
    + split; [done|]. by intros ?.
    + split; [by intros ?|]. intros _. simpl.
      split; [by repeat split|]. rewrite replacePlaceholders_replace.
      split; [apply replace_substituted|].
      split; [apply substituted_unique|apply replace_no_placeholder].
  - intros w Hw. unfold value_of. by rewrite Hw.
Qed.

(** The example of the specification: a missing key gives the empty
    string. *)
Example replacePlaceholders_example :
  replacePlaceholders "Hi {{user}}, bye {{other}}" {["user" := "Ana"]}
  = "Hi Ana, bye ".
Proof. vm_compute. reflexivity. Qed.

(** C9, as the specification states it, fails: the value of the row key
    [__name] enters the content of an item whose text holds the
    placeholder [{{__name}}], in a template with no placeholder [name]. *)
Lemma reserved___name_is_substituted :
  ("name" ∉ names "Label {{__name}}")
  ∧ (item_content <$>
      cloneItemsWithData [text_item "a" "Label {{__name}}"]
                         {["__name" := "Custom"]})
    = ["Label Custom"]
  ∧ (item_content <$>
      cloneItemsWithData [text_item "a" "Label {{__name}}"] ∅)
    = ["Label "].
Proof.
  split; [|split; by vm_compute].
  intros H. vm_compute in H. by apply list_elem_of_singleton in H.
Qed.

(** C9, amended. Substitution gives the row keys [__name] and [name] no
    special treatment: their values enter an output content exactly at the
    placeholders [{{__name}}] and [{{name}}]. When no TEXT item holds
    either placeholder, two rows that differ at these keys only give the
    same items; and where such a placeholder stands, the row's value for it
    is what replaces it. *)
Theorem reserved_keys_only_by_placeholder
    (items : list CanvasItemPayload) (row row' : MergeRow) :
  (∀ k, k ≠ "__name" → k ≠ "name" → row !! k = row' !! k) →
  (∀ item, item ∈ items → item_type item = TEXT →
           ("__name" ∉ names (item_content item))
           ∧ ("name" ∉ names (item_content item))) →
  cloneItemsWithData items row = cloneItemsWithData items row'
  ∧ (∀ pre post,
       replacePlaceholders (pre +:+ token "name" +:+ post) row
       = replacePlaceholders pre row +:+ value_of row "name"
         +:+ replacePlaceholders post row)
  ∧ (∀ pre post,
       replacePlaceholders (pre +:+ token "__name" +:+ post) row
       = replacePlaceholders pre row +:+ value_of row "__name"
         +:+ replacePlaceholders post row).
Proof.
  intros Hrow Hitems. split.
  - unfold cloneItemsWithData. apply list_fmap_ext. intros i item Hi.
    case_bool_decide as Ht; [done|]. f_equal.
    assert (item_type item = TEXT) as Ht'
      by (by destruct (decide (item_type item = TEXT))).
    destruct (Hitems item) as [H1 H2];
      [by eapply list_elem_of_lookup_2|done|].
    apply replacePlaceholders_ext. intros w Hw.
    apply Hrow; by intros ->.
  - split; intros pre post; apply replacePlaceholders_app_token.
    + apply is_name_name.
    + apply is_name___name.
Qed.

Lemma reserved_keys_only_by_placeholder_witness :
  let items := [text_item "a" "SKU {{sku}}"] in
  let row : MergeRow := {["sku" := "A1"; "__name" := "Custom"]} in
  let row' : MergeRow := {["sku" := "A1"; "name" := "Other"]} in
  cloneItemsWithData items row = cloneItemsWithData items row'.
Proof.
  intros items row row'.
  apply (reserved_keys_only_by_placeholder items row row').
  - intros k H1 H2. subst row row'.
    destruct (decide (k = "sku")) as [->|Hk].
    + by rewrite !lookup_insert_eq.
    + rewrite !lookup_insert_ne by done. by rewrite !lookup_singleton_ne.
  - intros item ->%list_elem_of_singleton _.
    split; intros H; vm_compute in H;
      by apply list_elem_of_singleton in H.
Defined.

(** C10. Substitution is a single pass: at a placeholder the row's value is
    put into the result as it is, between the substituted text before and
    the substituted text after the placeholder; a placeholder token inside
    that value stays as literal text, whatever the row says about its
    name. *)
Theorem replacePlaceholders_single_pass
    (pre w post v : string) (row : MergeRow) :
  is_name w → row !! w = Some v →
  replacePlaceholders (pre +:+ token w +:+ post) row
  = replacePlaceholders pre row +:+ v +:+ replacePlaceholders post row.
Proof.
  intros Hw Hv. rewrite replacePlaceholders_app_token by done.
  unfold value_of. by rewrite Hv.
Qed.

Lemma replacePlaceholders_single_pass_witness :
  let row : MergeRow := {["user" := "{{other}}"; "other" := "X"]} in
  replacePlaceholders ("Hi " +:+ token "user" +:+ "!") row
  = replacePlaceholders "Hi " row +:+ "{{other}}"
    +:+ replacePlaceholders "!" row.
Proof.
  intros row. apply replacePlaceholders_single_pass.
  - by split.
  - reflexivity.
Defined.

Example replacePlaceholders_single_pass_example :
  replacePlaceholders "Hi {{user}}!"
    {["user" := "{{other}}"; "other" := "X"]}
  = "Hi {{other}}!".
Proof. vm_compute. reflexivity. Qed.

(** ** The descendant closure *)

Section facts.

Context (folders : Folders).

Local Abbreviation P := (is_parent_of folders).

Local Abbreviation ch := (find_by_parent folders).

Lemma find_by_parent_spec p c : c ∈ ch p ↔ P p c.
Proof.
  unfold find_by_parent, is_parent_of. rewrite list_elem_of_fmap. split.
  - intros ([c' f] & -> & [Hp Hin%elem_of_map_to_list]%list_elem_of_filter).
    by exists f.
  - intros (f & Hc & Hp). exists (c, f). split; [done|].
    apply list_elem_of_filter. split; [done|]. by apply elem_of_map_to_list.
Qed.

Lemma level_app k q1 q2 :
  level folders k (q1 ++ q2) = level folders k q1 ++ level folders k q2.
Proof.
  revert q1 q2. induction k as [|k IH]; intros q1 q2; simpl; [done|].
  by rewrite bind_app, IH.
Qed.

Lemma level_nil k : level folders k [] = [].
Proof. induction k as [|k IH]; simpl; [done|]. by rewrite IH. Qed.

Lemma level_add a b q :
  level folders (a + b) q = level folders b (level folders a q).
Proof. revert q. induction a as [|a IH]; intros q; simpl; [done|]. apply IH. Qed.

Lemma level_S k q :
  level folders (S k) q = level folders k q ≫= ch.
Proof. by rewrite <-Nat.add_1_r, level_add. Qed.

Lemma level_elem k q x :
  x ∈ level folders k q ↔ ∃ r, r ∈ q ∧ nsteps P k r x.
Proof.
  revert q. induction k as [|k IH]; intros q; simpl.
  - split.
    + intros Hx. exists x. split; [done|]. constructor.
    + intros (r & Hr & Hs). by inversion Hs; subst.
  - rewrite IH. split.
    + intros (c & (r & Hc & Hr)%list_elem_of_bind & Hs).
      exists r. split; [done|]. econstructor; [|done].
      by apply find_by_parent_spec.
    + intros (r & Hr & Hs). inversion Hs as [|n' x' c z Hrc Hcx]; subst.
      exists c. split; [|done]. apply list_elem_of_bind. exists r.
      split; [|done]. by apply find_by_parent_spec.
Qed.

(** Once a level is empty, so is every later one. *)
Lemma level_empty_later d k q :
  level folders d q = [] → d ≤ k → level folders k q = [].
Proof.
  intros Hd Hk. replace k with (d + (k - d)) by lia.
  by rewrite level_add, Hd, level_nil.
Qed.

Lemma below_levels d q :
  below folders d q = mjoin ((λ k, level folders (S k) q) <$> seq 0 d).
Proof.
  revert q. induction d as [|d IH]; intros q; [done|].
  rewrite <-cons_seq, fmap_cons, <-fmap_S_seq, <-list_fmap_compose. simpl.
  by rewrite IH.
Qed.

Lemma below_elem d q x :
  level folders d q = [] →
  x ∈ below folders d q ↔ ∃ k, 0 < k ∧ x ∈ level folders k q.
Proof.
  intros Hd. rewrite below_levels. split.
  - intros (l & Hx & (k & -> & Hk)%list_elem_of_fmap)%list_elem_of_join.
    exists (S k). split; [lia|done].
  - intros (k & Hk & Hx). destruct (decide (d ≤ k)) as [Hdk|Hdk].
    { rewrite (level_empty_later d k q) in Hx by done.
      by apply elem_of_nil in Hx. }
    destruct k as [|k]; [lia|]. apply list_elem_of_join.
    exists (level folders (S k) q). split; [done|].
    apply list_elem_of_fmap. exists k. split; [done|].
    apply elem_of_seq. lia.
Qed.

(** Dequeuing a whole prefix of the queue appends the children of its
    folders, in order, to the ids and to the queue. *)
Lemma loop_prefix p fuel ids q :
  loop (length p + fuel) folders ids (p ++ q)
  = loop fuel folders (ids ++ (p ≫= ch)) (q ++ (p ≫= ch)).
Proof.
  revert ids q. induction p as [|c p IH]; intros ids q; simpl.
  - by rewrite !app_nil_r.
  - rewrite <-!app_assoc, IH, <-!app_assoc. done.
Qed.

(** With an empty level [d], the loop ends and returns the ids followed by
    the levels below the queue, level by level. *)
Lemma loop_levels d q ids :
  level folders d q = [] →
  ∃ fuel, ∀ extra,
    loop (fuel + extra) folders ids q = Some (ids ++ below folders d q).
Proof.
  revert q ids. induction d as [|d IH]; intros q ids; simpl.
  - intros ->. exists 1. intros extra. simpl. by rewrite app_nil_r.
  - intros Hd. destruct (IH _ (ids ++ (q ≫= ch)) Hd) as [fuel Hfuel].
    exists (length q + fuel). intros extra.
    rewrite <-(app_nil_r q) at 2. rewrite <-Nat.add_assoc, loop_prefix.
    rewrite app_nil_l, Hfuel, <-app_assoc. done.
Qed.

Lemma loop_more fuel extra ids q r :
  loop fuel folders ids q = Some r → loop (fuel + extra) folders ids q = Some r.
Proof.
  revert ids q. induction fuel as [|fuel IH]; intros ids q; simpl; [done|].
  destruct q as [|c q]; [done|]. apply IH.
Qed.

Lemma loop_deterministic f1 f2 ids q r1 r2 :
  loop f1 folders ids q = Some r1 → loop f2 folders ids q = Some r2 → r1 = r2.
Proof.
  intros H1%(loop_more _ f2) H2%(loop_more _ f1).
  rewrite Nat.add_comm in H2. congruence.
Qed.

(** A queue with folders at every depth below it never empties. *)
Lemma loop_diverges fuel ids q :
  (∀ k, level folders k q ≠ []) → loop fuel folders ids q = None.
Proof.
  revert ids q. induction fuel as [|fuel IH]; intros ids q Hq; simpl; [done|].
  destruct q as [|c q]; [by destruct (Hq 0)|].
  apply IH. intros k Hk. rewrite level_app in Hk.
  apply app_eq_nil in Hk as [Hk1 Hk2]. apply (Hq (S k)).
  change (c :: q) with ([c] ++ q). rewrite level_app, (level_S k q), Hk1.
  assert (level folders (S k) [c] = level folders k (ch c)) as ->
    by (simpl; by rewrite app_nil_r).
  by rewrite Hk2.
Qed.

Lemma acyclic_no_cycle_from rootId : acyclic folders → no_cycle_from folders rootId.
Proof. intros H x _. apply H. Qed.

(** A path of [k] parent steps from [r], with no cycle on its way, visits
    [k] different folders of the collection. *)
Lemma path_folders k r x :
  no_cycle_from folders r → nsteps P k r x →
  ∃ l, length l = k ∧ NoDup l
       ∧ ∀ e, e ∈ l → is_Some (folders !! e) ∧ tc P r e.
Proof.
  intros Hr Hs. induction Hs as [r|n r y x Hry Hs IH].
  - exists []. split; [done|]. split; [constructor|].
    by intros e ?%elem_of_nil.
  - destruct IH as (l & Hlen & Hnd & Hl).
    { intros z Hz. apply Hr. by eapply rtc_l. }
    exists (y :: l). split; [simpl; lia|]. split.
    + constructor; [|done]. intros [_ Hy]%Hl.
      apply (Hr y); [by apply rtc_once|done].
    + intros e [->|He]%elem_of_cons.
      * split; [|by apply tc_once]. destruct Hry as (f & Hf & _). by eexists.
      * destruct (Hl e He) as [? ?]. split; [done|]. by eapply tc_l.
Qed.

(** Without a cycle below the root, the tree is no deeper than the number
    of folders. *)
Lemma level_bound rootId :
  no_cycle_from folders rootId →
  level folders (S (size folders)) [rootId] = [].
Proof.
  intros Hr. destruct (level _ _ _) as [|x l] eqn:E; [done|]. exfalso.
  assert (x ∈ level folders (S (size folders)) [rootId]) as Hx
    by (rewrite E; by left).
  apply level_elem in Hx as (r & ->%list_elem_of_singleton & Hs).
  apply path_folders in Hs as (p & Hlen & Hnd & Hp); [|done].
  assert (p ⊆+ (map_to_list folders).*1) as Hsub.
  { apply NoDup_submseteq; [done|]. intros e [[f He] _]%Hp.
    apply list_elem_of_fmap. exists (e, f). split; [done|].
    by apply elem_of_map_to_list. }
  apply submseteq_length in Hsub.
  rewrite length_fmap, length_map_to_list in Hsub. lia.
Qed.

Lemma tc_inv_last x z : tc P x z → ∃ y, rtc P x y ∧ P y z.
Proof.
  intros (n & Hn & Hs)%tc_nsteps. destruct n as [|n]; [lia|].
  apply nsteps_inv_r in Hs as (y & Hs & Hyz). exists y.
  split; [by eapply rtc_nsteps_2|done].
Qed.

Lemma tc_inv_first x z : tc P x z → ∃ y, P x y ∧ rtc P y z.
Proof.
  intros H. inversion H as [? ? Hxz|? y ? Hxy Hyz]; subst.
  - exists z. split; [done|]. apply rtc_refl.
  - exists y. split; [done|]. by apply tc_rtc.
Qed.

(** From a folder on a cycle there are paths of every length. *)
Lemma cycle_paths x n : tc P x x → ∃ y, nsteps P n x y ∧ tc P y y.
Proof.
  intros Hx. induction n as [|n (y & Hs & Hy)].
  - exists x. split; [constructor|done].
  - apply tc_inv_first in Hy as (z & Hyz & Hzy). exists z. split.
    + by eapply nsteps_r.
    + eapply tc_rtc_l; [done|]. by apply tc_once.
Qed.

Lemma cycle_levels rootId x k :
  rtc P rootId x → tc P x x → level folders k [rootId] ≠ [].
Proof.
  intros (j & Hj)%rtc_nsteps_1 Hx Hk.
  destruct (cycle_paths x k Hx) as (y & Hs & _).
  pose proof (nsteps_trans _ _ _ _ _ Hj Hs) as Hjk.
  rewrite Nat.add_comm in Hjk.
  apply nsteps_add_inv in Hjk as (z & Hz & _).
  assert (z ∈ level folders k [rootId]) as Hin.
  { apply level_elem. exists rootId. split; [by left|done]. }
  rewrite Hk in Hin. by apply elem_of_nil in Hin.
Qed.

Lemma climbs_cycle n x : tc P x x → climbs folders n x = false.
Proof.
  revert x. induction n as [|n IH]; intros x Hx; simpl; [done|].
  apply tc_inv_last in Hx as (p & Hxp & (f & Hf & Hp)).
  rewrite Hf, Hp. apply IH. eapply tc_rtc_r; [|done]. apply tc_once.
  by exists f.
Qed.

Lemma acyclicb_sound : acyclicb folders = true → acyclic folders.
Proof.
  unfold acyclicb. rewrite forallb_forall. intros H x Hx.
  pose proof Hx as (p & _ & (f & Hf & _))%tc_inv_last.
  assert (climbs folders (S (size folders)) x = true) as Hc.
  { apply H, list_elem_of_In, list_elem_of_fmap. exists (x, f).
    split; [done|]. by apply elem_of_map_to_list. }
  by rewrite climbs_cycle in Hc.
Qed.

(** What the traversal returns when no cycle is below the root. *)
Lemma findDescendantFolderIds_result rootId :
  no_cycle_from folders rootId →
  returns folders rootId
    (rootId :: below folders (S (size folders)) [rootId]).
Proof.
  intros Hr. destruct (loop_levels (S (size folders)) [rootId] [rootId])
    as [fuel Hfuel]; [by apply level_bound|].
  exists (fuel + 0). unfold findDescendantFolderIds. by rewrite Hfuel.
Qed.

Lemma result_elem rootId x :
  no_cycle_from folders rootId →
  x ∈ rootId :: below folders (S (size folders)) [rootId] ↔ rtc P rootId x.
Proof.
  intros Hr. rewrite elem_of_cons, below_elem by by apply level_bound.
  split.
  - intros [->|(k & _ & (r & ->%list_elem_of_singleton & Hs)%level_elem)].
    + apply rtc_refl.
    + by eapply rtc_nsteps_2.
  - intros ([|k] & Hs)%rtc_nsteps_1.
    + left. by inversion Hs.
    + right. exists (S k). split; [lia|]. apply level_elem.
      exists rootId. split; [by left|done].
Qed.

Lemma result_levels rootId d :
  rootId :: below folders d [rootId]
  = mjoin ((λ k, level folders k [rootId]) <$> seq 0 (S d)).
Proof.
  rewrite below_levels, <-cons_seq, fmap_cons, <-fmap_S_seq.
  by rewrite <-list_fmap_compose.
Qed.

Lemma find_by_parent_NoDup p : NoDup (ch p).
Proof.
  unfold find_by_parent. apply NoDup_fmap_fst.
  - intros x y1 y2 [_ H1%elem_of_map_to_list]%list_elem_of_filter
      [_ H2%elem_of_map_to_list]%list_elem_of_filter. congruence.
  - apply NoDup_filter, NoDup_map_to_list.
Qed.

(** A folder has one parent. *)
Lemma parent_unique p p' c : P p c → P p' c → p = p'.
Proof. intros (f & Hf & Hp) (f' & Hf' & Hp'). congruence. Qed.

Lemma level_NoDup k q : NoDup q → NoDup (level folders k q).
Proof.
  revert q. induction k as [|k IH]; intros q Hq; simpl; [done|].
  apply IH, NoDup_bind; [|intros; apply find_by_parent_NoDup|done].
  intros p p' c _ _ Hc%find_by_parent_spec Hc'%find_by_parent_spec.
  by eapply parent_unique.
Qed.

Lemma nsteps_backward j d r r' x :
  nsteps P j r x → nsteps P (d + j) r' x → nsteps P d r' r.
Proof.
  revert x. induction j as [|j IH]; intros x Hj Hd.
  - inversion Hj; subst. by rewrite Nat.add_0_r in Hd.
  - apply nsteps_inv_r in Hj as (y & Hy & Hyx). rewrite Nat.add_succ_r in Hd.
    apply nsteps_inv_r in Hd as (y' & Hy' & Hy'x).
    rewrite (parent_unique _ _ _ Hyx Hy'x) in Hy. by eapply IH.
Qed.

(** Without a cycle below the root, a folder is at one depth only. *)
Lemma levels_disjoint rootId j k x :
  no_cycle_from folders rootId → j < k →
  x ∈ level folders j [rootId] → x ∉ level folders k [rootId].
Proof.
  intros Hr Hjk (r & ->%list_elem_of_singleton & Hj)%level_elem
    (r' & ->%list_elem_of_singleton & Hk)%level_elem.
  replace k with ((k - j) + j) in Hk by lia.
  pose proof (nsteps_backward _ _ _ _ _ Hj Hk) as Hd.
  apply (Hr rootId); [apply rtc_refl|]. apply tc_nsteps.
  exists (k - j). split; [lia|done].
Qed.

Lemma levels_NoDup rootId start len :
  no_cycle_from folders rootId →
  NoDup (mjoin ((λ k, level folders k [rootId]) <$> seq start len)).
Proof.
  intros Hr. revert start. induction len as [|len IH]; intros start.
  { constructor. }
  rewrite <-cons_seq, fmap_cons. change (mjoin (?l :: ?ls)) with (l ++ mjoin ls).
  apply NoDup_app. split_and!.
  - apply level_NoDup, NoDup_singleton.
  - intros x Hx (l & Hxl & (k & -> & Hk%elem_of_seq)%list_elem_of_fmap)
      %list_elem_of_join.
    eapply levels_disjoint; [done| |exact Hx|exact Hxl]. lia.
  - apply IH.
Qed.

Lemma below_nil d : below folders d [] = [].
Proof. induction d as [|d IH]; simpl; [done|]. apply IH. Qed.

Lemma returns_unique rootId ids ids' :
  returns folders rootId ids → returns folders rootId ids' → ids' = ids.
Proof. intros [f1 H1] [f2 H2]. by eapply loop_deterministic. Qed.

(** With a cycle below the root the loop never ends. *)
Lemma reachable_cycle_diverges rootId :
  (∃ x, rtc P rootId x ∧ tc P x x) →
  ∀ fuel, findDescendantFolderIds fuel folders rootId = None.
Proof.
  intros (x & Hrx & Hx) fuel. apply loop_diverges.
  intros k. by eapply cycle_levels.
Qed.

End facts.

Lemma example_cycle_a : tc (is_parent_of example_cycle) "a" "a".
Proof.
  apply (tc_l _ "a" "b" "a"); [|apply tc_once].
  - exists {| folder_name := "B"; folder_parentId := Some "a" |}.
    split; [vm_compute|]; reflexivity.
  - exists {| folder_name := "A"; folder_parentId := Some "b" |}.
    split; [vm_compute|]; reflexivity.
Qed.

(** C6, as the specification states it, fails: on two folders that are each
    other's parent the computation returns nothing, for the queue never
    empties. *)
Lemma findDescendantFolderIds_cycle_never_returns :
  ¬ ∃ ids, returns example_cycle "a" ids.
Proof.
  intros (ids & fuel & H).
  rewrite reachable_cycle_diverges in H; [done|].
  exists "a". split; [apply rtc_refl|apply example_cycle_a].
Qed.

(** C6, amended. When no cycle of the parent relation can be reached from
    the root (so on every acyclic collection), the descendant closure
    returns; what it returns is determined; a folder id is in it exactly
    when it is reachable from the root by parent-to-child steps, the root
    included, and it is there once; the ids come level by level, the root first, then its
    children, then theirs; and for a root without children the result is
    the root alone. *)
Theorem findDescendantFolderIds_closure
    (folders : Folders) (rootId : string) :
  no_cycle_from folders rootId →
  ∃ ids,
    returns folders rootId ids
    ∧ (∀ ids', returns folders rootId ids' → ids' = ids)
    ∧ (∀ x, x ∈ ids ↔ rtc (is_parent_of folders) rootId x)
    ∧ NoDup ids
    ∧ (∃ d, ids = mjoin ((λ k, level folders k [rootId]) <$> seq 0 (S d)))
    ∧ head ids = Some rootId
    ∧ (find_by_parent folders rootId = [] → ids = [rootId]).
Proof.
  intros Hr. exists (rootId :: below folders (S (size folders)) [rootId]).
  pose proof (findDescendantFolderIds_result folders rootId Hr) as Hret.
  split; [done|]. split; [intros ids' H'; by eapply returns_unique|].
  split; [intros x; by apply result_elem|].
  split; [rewrite result_levels; by apply levels_NoDup|].
  split; [eexists; apply result_levels|]. split; [done|].
  intros Hleaf. simpl. by rewrite Hleaf, below_nil.
Qed.

Lemma findDescendantFolderIds_closure_witness :
  ∃ ids,
    returns example_tree "root" ids
    ∧ (∀ ids', returns example_tree "root" ids' → ids' = ids)
    ∧ (∀ x, x ∈ ids ↔ rtc (is_parent_of example_tree) "root" x)
    ∧ NoDup ids
    ∧ (∃ d, ids = mjoin ((λ k, level example_tree k ["root"])
                          <$> seq 0 (S d)))
    ∧ head ids = Some "root"
    ∧ (find_by_parent example_tree "root" = [] → ids = ["root"]).
Proof.
  apply (findDescendantFolderIds_closure example_tree "root").
  apply acyclic_no_cycle_from, acyclicb_sound. vm_compute. reflexivity.
Defined.

(** The examples of the specification: the tree, and a leaf. *)
Example findDescendantFolderIds_tree :
  findDescendantFolderIds 5 example_tree "root"
  = Some ["root"; "child1"; "child2"; "grandchild"].
Proof. vm_compute. reflexivity. Qed.

Example findDescendantFolderIds_leaf :
  findDescendantFolderIds 3 example_tree "child2" = Some ["child2"].
Proof. vm_compute. reflexivity. Qed.

(** C7. On an acyclic folder collection the traversal terminates: the queue
    is empty after finitely many dequeues. Nothing in the loop guards
    against a cycle: when a cycle of the parent relation can be reached
    from the root, the queue is never empty. *)
Theorem findDescendantFolderIds_terminates
    (folders : Folders) (rootId : string) :
  (acyclic folders →
   ∃ fuel ids, findDescendantFolderIds fuel folders rootId = Some ids)
  ∧ ((∃ x, rtc (is_parent_of folders) rootId x
           ∧ tc (is_parent_of folders) x x) →
     ∀ fuel, findDescendantFolderIds fuel folders rootId = None).
Proof.
  split.
  - intros Ha.
    destruct (findDescendantFolderIds_result folders rootId) as [fuel H].
    { by apply acyclic_no_cycle_from. }
    eauto.
  - apply reachable_cycle_diverges.
Qed.

Lemma findDescendantFolderIds_terminates_witness :
  (∃ fuel ids, findDescendantFolderIds fuel example_tree "root" = Some ids)
  ∧ (∀ fuel, findDescendantFolderIds fuel example_cycle "a" = None).
Proof.
  split.
  - apply (proj1 (findDescendantFolderIds_terminates example_tree "root")).
    apply acyclicb_sound. vm_compute. reflexivity.
  - apply (proj2 (findDescendantFolderIds_terminates example_cycle "a")).
    exists "a". split; [apply rtc_refl|].
    apply (tc_l _ "a" "b" "a"); [|apply tc_once].
    + exists {| folder_name := "B"; folder_parentId := Some "a" |}.
      split; [vm_compute|]; reflexivity.
    + exists {| folder_name := "A"; folder_parentId := Some "b" |}.
      split; [vm_compute|]; reflexivity.
Defined.

(** ** The merge handler *)

Example trim_example :
  trim (String "009" " Jane  Doe " +:+ String "010" "") = "Jane  Doe"
  ∧ trim "   " = "" ∧ trim "" = "".
Proof. by vm_compute. Qed.








Lemma length_zero_iff s : (String.length s =? 0) = bool_decide (s = "").
Proof. by destruct s. Qed.




Lemma nullish_None_r {A} (a : option A) : nullish a None = a.
Proof. by destruct a. Qed.







(** C1 fails on the code. A template whose first field has the name of a
    member of [Object.prototype] (here [constructor]) and a row without a
    name of its own: the request resolves and has one row, yet the handler
    answers with a server error and creates nothing. The name lookup
    [row[effectiveFields[0].name]] gives the inherited function, and
    calling [trim] on it throws. *)
Theorem merge_inherited_field_name_fails :
  let template := base "{{constructor}}" in
  let store : Templates := {["t1" := template]} in
  let req := request None [∅] in
  resolves store req template [∅]
  ∧ reads_inherited (effectiveFields template) ∅
  ∧ replacePlaceholders "{{constructor}}" ∅ = ""
  ∧ merge store req = (ServerError, store).
Proof.
  split; [|split; [|split]].
  - exists "t1". split_and!; try done.
  - split; [done|]. split; [done|]. eexists _, []. split; [by vm_compute|].
    split; [done|]. vm_compute. by left.
  - by vm_compute.
  - by vm_compute.
Qed.




(** The names of the specification's example: the rows have a value for the
    first field [sku], which names the outputs; rows without it take the
    fallback names; and [__name] comes first. *)
Example merge_names_example :
  let store : Templates := {["t1" := base "SKU {{sku}}"]} in
  let names rows :=
    match (merge store (request None rows)).1 with
    | Created outs => (λ o, tpl_name (res_doc o)) <$> outs
    | _ => []
    end in
  names [ {["sku" := "A1"]}; {["sku" := "A2"]} ] = ["A1"; "A2"]
  ∧ names [ ∅; ∅ ] = ["Base #1"; "Base #2"]
  ∧ names [ {["sku" := "A1"; "__name" := "Custom"]}; {["sku" := "A2"]} ]
    = ["Custom"; "A2"].
Proof. by vm_compute. Qed.



(** * Part III: further properties of the modelled code *)

(** ** Field extraction and substitution together *)

Lemma occurrences_elem items n i :
  (n, i) ∈ occurrences items ↔
  ∃ item, item ∈ items ∧ scanned item = true
          ∧ n ∈ names (item_content item) ∧ i = item_id item.
Proof.
  unfold occurrences. rewrite list_elem_of_bind. split.
  - intros (item & Hin & Hitem). exists item.
    destruct (scanned item); [|by apply elem_of_nil in Hin].
    apply list_elem_of_fmap in Hin as (w & [= -> ->] & Hw). done.
  - intros (item & Hitem & Hs & Hn & ->). exists item. split; [|done].
    rewrite Hs. apply list_elem_of_fmap. by exists n.
Qed.

Lemma extract_field_occurrence items f :
  f ∈ extractFieldsFromItems items →
  field_label f = field_name f
  ∧ (field_name f, field_targetItemId f) ∈ occurrences items.
Proof.
  rewrite extract_first_occurrences.
  intros ([n i] & -> & Hin)%list_elem_of_fmap. split; [done|].
  apply first_occurrences_first in Hin as (l1 & l2 & -> & _).
  apply elem_of_app. right. by left.
Qed.

Lemma name_extracted items item w :
  item ∈ items → scanned item = true → w ∈ names (item_content item) →
  ∃ f, f ∈ extractFieldsFromItems items ∧ field_name f = w.
Proof.
  intros Hitem Hs Hw.
  assert (w ∈ field_name <$> extractFieldsFromItems items) as Hf.
  { rewrite extract_names, first_occurrences_names. split.
    - apply list_elem_of_fmap. exists (w, item_id item). split; [done|].
      apply occurrences_elem. eauto.
    - apply not_elem_of_nil. }
  apply list_elem_of_fmap in Hf as (f & -> & Hf). eauto.
Qed.

Lemma scanned_TEXT item : scanned item = true → item_type item = TEXT.
Proof.
  unfold scanned. intros [Ht _]%andb_prop. by apply bool_decide_eq_true in Ht.
Qed.

(** X1. Every extracted field is well formed: its name is a name of the
    grammar (so it is not empty), its label is the name, and its target is
    a TEXT item of the list whose content holds the placeholder; row
    substitution keeps ids and types, so the target is still a TEXT item of
    every merge output. *)
Theorem extractFieldsFromItems_well_formed
    (items : list CanvasItemPayload) (row : MergeRow) :
  Forall (λ f,
    is_name (field_name f)
    ∧ field_label f = field_name f
    ∧ (∃ item, item ∈ items ∧ item_type item = TEXT
               ∧ item_id item = field_targetItemId f
               ∧ field_name f ∈ names (item_content item))
    ∧ (∃ item', item' ∈ cloneItemsWithData items row
                ∧ item_type item' = TEXT
                ∧ item_id item' = field_targetItemId f))
    (extractFieldsFromItems items).
Proof.
  apply Forall_forall. intros f [Hl Hocc]%extract_field_occurrence.
  apply occurrences_elem in Hocc as (item & Hitem & Hs & Hn & Hid).
  pose proof (scanned_TEXT _ Hs) as Ht.
  split; [by apply names_occurrence in Hn as [? _]|]. split; [done|]. split.
  - exists item. by rewrite Hid.
  - exists (with_content item
              (replacePlaceholders (item_content item) row)).
    split; [|by rewrite Hid]. unfold cloneItemsWithData.
    apply list_elem_of_fmap. exists item. split; [|done].
    by rewrite bool_decide_eq_false_2 by (by intros ?).
Qed.

Lemma first_occurrences_proper occ seen1 seen2 :
  (∀ x, x ∈ seen1 ↔ x ∈ seen2) →
  first_occurrences seen1 occ = first_occurrences seen2 occ.
Proof.
  revert seen1 seen2. induction occ as [|[n i] occ IH]; intros s1 s2 H.
  { done. }
  rewrite !first_occurrences_cons.
  rewrite (bool_decide_ext (n ∈ s1) (n ∈ s2)) by apply H.
  case_bool_decide; [by apply IH|]. f_equal. apply IH.
  intros x. rewrite !elem_of_app, H. done.
Qed.

Lemma first_occurrences_app seen occ1 occ2 :
  first_occurrences seen (occ1 ++ occ2)
  = first_occurrences seen occ1
    ++ first_occurrences (seen ++ (first_occurrences seen occ1).*1) occ2.
Proof.
  revert seen. induction occ1 as [|[n i] occ1 IH]; intros seen.
  { simpl. by rewrite app_nil_r. }
  rewrite <-app_comm_cons, !first_occurrences_cons.
  case_bool_decide; [apply IH|].
  rewrite IH, fmap_cons, <-app_comm_cons. simpl.
  by rewrite <-app_assoc.
Qed.

Lemma first_occurrences_filter occ A seen :
  first_occurrences (A ++ seen) occ
  = filter (λ o, o.1 ∉ A) (first_occurrences seen occ).
Proof.
  revert seen. induction occ as [|[n i] occ IH]; intros seen; [done|].
  rewrite !first_occurrences_cons.
  destruct (decide (n ∈ seen)) as [Hs|Hs].
  { rewrite !bool_decide_eq_true_2; [apply IH|done|].
    apply elem_of_app. by right. }
  rewrite (bool_decide_eq_false_2 (n ∈ seen)) by done.
  destruct (decide (n ∈ A)) as [HA|HA].
  - rewrite bool_decide_eq_true_2 by (apply elem_of_app; by left).
    rewrite filter_cons_False by (simpl; tauto).
    rewrite <-IH. apply first_occurrences_proper.
    intros x. rewrite !elem_of_app, list_elem_of_singleton.
    split; [tauto|]. intros [? | [? | ->]]; tauto.
  - rewrite bool_decide_eq_false_2
      by (rewrite elem_of_app; tauto).
    rewrite filter_cons_True by done. by rewrite <-IH, <-app_assoc.
Qed.

Lemma occurrences_app items1 items2 :
  occurrences (items1 ++ items2) = occurrences items1 ++ occurrences items2.
Proof. unfold occurrences. apply bind_app. Qed.

(** X2. Appending items never changes the fields found so far: the fields
    of [items1 ++ items2] are the fields of [items1], followed by the
    fields of [items2] whose names [items1] does not already have. *)
Theorem extractFieldsFromItems_app (items1 items2 : list CanvasItemPayload) :
  extractFieldsFromItems (items1 ++ items2)
  = extractFieldsFromItems items1
    ++ filter (λ f, field_name f ∉ field_name <$> extractFieldsFromItems items1)
         (extractFieldsFromItems items2).
Proof.
  rewrite extract_names, !extract_first_occurrences, occurrences_app.
  rewrite first_occurrences_app, fmap_app. f_equal.
  rewrite app_nil_l. set (A := (first_occurrences [] (occurrences items1)).*1).
  rewrite <-(app_nil_r A) at 1. rewrite first_occurrences_filter.
  induction (first_occurrences [] (occurrences items2)) as [|o l IH]; [done|].
  rewrite fmap_cons. destruct (decide (o.1 ∉ A)).
  - rewrite !filter_cons_True by done. by rewrite fmap_cons, IH.
  - by rewrite !filter_cons_False by done.
Qed.

Lemma with_content_same item : with_content item (item_content item) = item.
Proof. by destruct item. Qed.

Lemma replacePlaceholders_empty row : replacePlaceholders "" row = "".
Proof. reflexivity. Qed.

Lemma item_names_extracted items item w :
  item ∈ items → item_type item = TEXT → w ∈ names (item_content item) →
  ∃ f, f ∈ extractFieldsFromItems items ∧ field_name f = w.
Proof.
  intros Hitem Ht Hw. apply (name_extracted items item); [done| |done].
  unfold scanned, falsy. rewrite bool_decide_eq_true_2 by done. simpl.
  apply negb_true_iff, bool_decide_eq_false_2. intros Hc.
  rewrite Hc in Hw. by apply elem_of_nil in Hw.
Qed.

(** X3. The extracted fields name all the row keys a merge reads for the
    items: two rows with the same values at the names of the extracted
    fields give the same items. *)
Theorem cloneItemsWithData_fields_suffice
    (items : list CanvasItemPayload) (row row' : MergeRow) :
  (∀ f, f ∈ extractFieldsFromItems items →
        row !! field_name f = row' !! field_name f) →
  cloneItemsWithData items row = cloneItemsWithData items row'.
Proof.
  intros Hrow. unfold cloneItemsWithData. apply list_fmap_ext.
  intros i item Hi. case_bool_decide as Ht; [done|]. f_equal.
  apply replacePlaceholders_ext. intros w Hw.
  destruct (item_names_extracted items item w) as (f & Hf & <-); [|by destruct (decide (item_type item = TEXT))|done|by apply Hrow].
  by eapply list_elem_of_lookup_2.
Qed.

Lemma cloneItemsWithData_fields_suffice_witness :
  let items := [text_item "a" "SKU {{sku}}"; text_item "b" "{{sku}}/{{lot}}"] in
  let row : MergeRow := {["sku" := "A1"; "lot" := "7"; "note" := "x"]} in
  let row' : MergeRow := {["sku" := "A1"; "lot" := "7"; "__name" := "y"]} in
  cloneItemsWithData items row = cloneItemsWithData items row'.
Proof.
  intros items row row'. apply cloneItemsWithData_fields_suffice.
  intros f Hf. vm_compute in Hf.
  repeat (apply elem_of_cons in Hf as [->|Hf]; [by vm_compute|]).
  by apply elem_of_nil in Hf.
Defined.

(** X4. Substitution has an identity: with a row that gives every extracted
    field its own placeholder as value, the items come back unchanged. In
    particular the items of a template without fields are copied as they
    are by every row. *)
Theorem cloneItemsWithData_identity_row
    (items : list CanvasItemPayload) (row : MergeRow) :
  (∀ f, f ∈ extractFieldsFromItems items →
        row !! field_name f = Some (token (field_name f))) →
  cloneItemsWithData items row = items.
Proof.
  intros Hrow. unfold cloneItemsWithData.
  etrans; [|apply list_fmap_id]. apply list_fmap_ext.
  intros i item Hi. simpl. case_bool_decide as Ht; [done|].
  etrans; [|apply with_content_same]. f_equal.
  rewrite replacePlaceholders_replace. etrans; [|apply replace_token].
  apply replace_ext. intros w Hw. unfold value_of.
  destruct (item_names_extracted items item w) as (f & Hf & <-);
    [by eapply list_elem_of_lookup_2
    |by destruct (decide (item_type item = TEXT))|done|].
  by rewrite (Hrow f Hf).
Qed.

Lemma cloneItemsWithData_identity_row_witness :
  let items := [text_item "a" "SKU {{sku}}"; text_item "b" "plain"] in
  cloneItemsWithData items {["sku" := "{{sku}}"]} = items.
Proof.
  intros items. apply cloneItemsWithData_identity_row.
  intros f Hf. vm_compute in Hf.
  repeat (apply elem_of_cons in Hf as [->|Hf]; [by vm_compute|]).
  by apply elem_of_nil in Hf.
Defined.

(** ** More on the merge handler *)

Lemma merge_rows_subseteq template folderId fields rows :
  ∀ index store created,
  store ⊆ (merge_rows template folderId fields rows index store created).2.
Proof.
  induction rows as [|row rows IH]; intros index store created; [done|].
  cbn [merge_rows].
  destruct (generatedName template fields row index) as [name|]; [|done].
  unfold create. etrans; [|apply IH].
  apply insert_subseteq, not_elem_of_dom, is_fresh.
Qed.

(** X5. A merge request never removes or changes a stored template,
    whatever the request and however the merge ends: every document of the
    collection is there, unchanged, afterwards. *)
Theorem merge_keeps_existing (store : Templates) (req : MergeRequest) :
  store ⊆ (merge store req).2.
Proof.
  unfold merge. destruct (req_templateId req) as [id|]; [|done].
  destruct (req_rows req) as [rows|]; [|done].
  destruct (negb _ || _); [done|].
  destruct (store !! id); [|done]. apply merge_rows_subseteq.
Qed.

Lemma fallbackName_nonempty template index : fallbackName template index ≠ "".
Proof.
  unfold fallbackName. intros H. apply (f_equal String.length) in H.
  rewrite !str_length_app in H. simpl in H. lia.
Qed.

Lemma generatedName_nonempty template fields row index name :
  generatedName template fields row index = Some name → name ≠ "".
Proof.
  unfold generatedName.
  destruct (or _ _) as [|s|]; [| |done].
  - intros [= <-]. apply fallbackName_nonempty.
  - destruct (truthy (str s)); simpl.
    + rewrite length_zero_iff. case_bool_decide as Ht; simpl.
      * intros [= <-]. apply fallbackName_nonempty.
      * by intros [= <-].
    + intros [= <-]. apply fallbackName_nonempty.
Qed.






(** ** More on the descendant closure *)

Section closure_facts.
Context (folders : Folders).

Lemma no_cycle_from_child rootId c :
  no_cycle_from folders rootId → is_parent_of folders rootId c →
  no_cycle_from folders c.
Proof. intros Hr Hc x Hx. apply Hr. by eapply rtc_l. Qed.

Lemma returns_elem rootId ids x :
  no_cycle_from folders rootId → returns folders rootId ids →
  x ∈ ids ↔ rtc (is_parent_of folders) rootId x.
Proof.
  intros Hr Hret.
  rewrite (returns_unique folders rootId _ ids
             (findDescendantFolderIds_result folders rootId Hr) Hret).
  by apply result_elem.
Qed.

(** The loop, with the number of evaluations of its condition. *)
Lemma loop_levels_fuel d q ids extra :
  level folders d q = [] →
  loop (length (q ++ below folders d q) + 1 + extra) folders ids q
  = Some (ids ++ below folders d q).
Proof.
  revert q ids. induction d as [|d IH]; intros q ids Hd.
  - simpl in Hd. subst q. simpl. by rewrite app_nil_r.
  - change (level folders d (q ≫= find_by_parent folders) = []) in Hd.
    change (below folders (S d) q)
      with ((q ≫= find_by_parent folders)
            ++ below folders d (q ≫= find_by_parent folders)).
    set (c := q ≫= find_by_parent folders) in *.
    replace (length (q ++ c ++ below folders d c) + 1 + extra)
      with (length q + (length (c ++ below folders d c) + 1 + extra))
      by (rewrite !length_app; lia).
    rewrite <-(app_nil_r q) at 2. rewrite loop_prefix, app_nil_l.
    fold c. rewrite (IH c (ids ++ c) Hd). by rewrite <-app_assoc.
Qed.

Lemma below_in_store d q x :
  x ∈ below folders d q → is_Some (folders !! x).
Proof.
  rewrite below_levels.
  intros (l & Hx & (k & -> & _)%list_elem_of_fmap)%list_elem_of_join.
  apply level_elem in Hx as (r & _ & Hs).
  apply nsteps_inv_r in Hs as (y & _ & (f & Hf & _)). by exists f.
Qed.

End closure_facts.

(** X8. The closure of a folder is the folder and the closures of its
    children: when no cycle can be reached from the root, an id is in the
    result for the root exactly when it is the root or is in the result for
    one of the root's direct children. *)
Theorem findDescendantFolderIds_children
    (folders : Folders) (rootId : string) (ids : list string) :
  no_cycle_from folders rootId → returns folders rootId ids →
  ∀ x, x ∈ ids ↔
       x = rootId
       ∨ ∃ c ids', c ∈ find_by_parent folders rootId
                   ∧ returns folders c ids' ∧ x ∈ ids'.
Proof.
  intros Hr Hret x. rewrite (returns_elem folders rootId ids x Hr Hret).
  split.
  - intros Hx. inversion Hx as [|? c ? Hc Hcx]; subst; [by left|]. right.
    pose proof (no_cycle_from_child folders rootId c Hr Hc) as Hcyc.
    exists c, (c :: below folders (S (size folders)) [c]).
    split; [by apply find_by_parent_spec|].
    split; [by apply findDescendantFolderIds_result|].
    by apply result_elem.
  - intros [->|(c & ids' & Hc%find_by_parent_spec & Hret' & Hx)].
    + apply rtc_refl.
    + eapply rtc_l; [done|].
      eapply returns_elem; [|done..].
      by eapply no_cycle_from_child.
Qed.

Lemma findDescendantFolderIds_children_witness :
  ∃ ids,
    returns example_tree "root" ids
    ∧ ∀ x, x ∈ ids ↔
           x = "root"
           ∨ ∃ c ids', c ∈ find_by_parent example_tree "root"
                       ∧ returns example_tree c ids' ∧ x ∈ ids'.
Proof.
  assert (returns example_tree "root"
            ["root"; "child1"; "child2"; "grandchild"]) as Hret
    by (exists 5; by vm_compute).
  eexists. split; [exact Hret|].
  apply (findDescendantFolderIds_children example_tree "root"); [|exact Hret].
  apply acyclic_no_cycle_from, acyclicb_sound. by vm_compute.
Defined.

(** X9. A bound on the work. When no cycle can be reached from the root,
    the loop condition is evaluated at most as many times as there are
    folders, plus two, and the result has at most one id more than there
    are folders. *)
Theorem findDescendantFolderIds_bound (folders : Folders) (rootId : string) :
  no_cycle_from folders rootId →
  ∃ ids,
    findDescendantFolderIds (size folders + 2) folders rootId = Some ids
    ∧ length ids ≤ size folders + 1.
Proof.
  intros Hr. set (ids := rootId :: below folders (S (size folders)) [rootId]).
  assert (length (below folders (S (size folders)) [rootId])
          ≤ length (map_to_list folders).*1) as Hlen.
  { apply submseteq_length, NoDup_submseteq.
    - assert (NoDup ids) as Hnd
        by (unfold ids; rewrite result_levels; by apply levels_NoDup).
      unfold ids in Hnd. by apply NoDup_cons in Hnd as [_ ?].
    - intros x [f Hf]%below_in_store. apply list_elem_of_fmap.
      exists (x, f). split; [done|]. by apply elem_of_map_to_list. }
  rewrite length_fmap, length_map_to_list in Hlen.
  exists ids. split; [|unfold ids; cbn [length]; lia].
  unfold findDescendantFolderIds.
  replace (size folders + 2) with
    (length ([rootId] ++ below folders (S (size folders)) [rootId]) + 1
     + (size folders - length (below folders (S (size folders)) [rootId])))
    by (rewrite length_app; cbn [length]; lia).
  rewrite loop_levels_fuel; [done|]. by apply level_bound.
Qed.

Lemma findDescendantFolderIds_bound_witness :
  ∃ ids,
    findDescendantFolderIds (size example_tree + 2) example_tree "root"
    = Some ids
    ∧ length ids ≤ size example_tree + 1.
Proof.
  apply findDescendantFolderIds_bound.
  apply acyclic_no_cycle_from, acyclicb_sound. by vm_compute.
Defined.

(** ** The schemas *)

Import Schema FolderApi.

Lemma required_nonempty s : required s = true ↔ s ≠ "".
Proof.
  unfold required. rewrite negb_true_iff, bool_decide_eq_false. done.
Qed.

Lemma forallb_Forall {A} (p : A → bool) (l : list A) :
  forallb p l = true ↔ Forall (λ x, p x = true) l.
Proof.
  induction l as [|x l IH]; simpl.
  - split; [constructor|done].
  - rewrite andb_true_iff, IH, Forall_cons. done.
Qed.

Lemma valid_items_clone items row :
  forallb valid_item items = true →
  forallb valid_item (cloneItemsWithData items row) = true.
Proof.
  rewrite !forallb_Forall. unfold cloneItemsWithData.
  rewrite Forall_fmap. intros Hitems. eapply Forall_impl; [done|].
  intros item Hitem. simpl. by destruct (bool_decide _).
Qed.

Lemma valid_fields_extract items :
  forallb valid_item items = true →
  forallb valid_field (extractFieldsFromItems items) = true.
Proof.
  rewrite !forallb_Forall, !Forall_forall.
  intros Hitems f [Hl Hocc]%extract_field_occurrence.
  apply occurrences_elem in Hocc as (item & Hitem & _ & Hn & Hid).
  apply names_occurrence in Hn as [[Hne _] _].
  unfold valid_field. rewrite Hl, Hid.
  rewrite (proj2 (required_nonempty _) Hne). simpl.
  by apply Hitems.
Qed.

Lemma valid_template_parts t :
  valid_template t = true ↔
  tpl_name t ≠ "" ∧ forallb valid_item (tpl_items t) = true
  ∧ forallb valid_field (tpl_fields t) = true.
Proof.
  unfold valid_template. rewrite !andb_true_iff, required_nonempty. tauto.
Qed.

Lemma valid_effectiveFields t :
  valid_template t = true →
  forallb valid_field (effectiveFields t) = true.
Proof.
  intros (_ & Hitems & Hfields)%valid_template_parts. unfold effectiveFields.
  destruct (negb _); [done|]. by apply valid_fields_extract.
Qed.

Lemma merge_rows_valid template folderId rows :
  valid_template template = true →
  ∀ index store created,
  map_Forall (λ _ t, valid_template t = true) store →
  map_Forall (λ _ t, valid_template t = true)
    (merge_rows template folderId (effectiveFields template) rows index store
       created).2.
Proof.
  intros Ht. induction rows as [|row rows IH]; intros index store created Hs.
  { done. }
  cbn [merge_rows].
  destruct (generatedName _ _ _ _) as [name|] eqn:Hname; [|done].
  unfold create. apply IH. apply map_Forall_insert_2; [|done].
  apply valid_template_parts. simpl. split_and!.
  - by eapply generatedName_nonempty.
  - apply valid_items_clone. by apply valid_template_parts in Ht as (_ & ? & _).
  - by apply valid_effectiveFields.
Qed.

(** X10. The merge keeps the collection within the schema. When every
    stored template has the strings the schema requires (a name, an id for
    every item, and name, label and target for every field), so has every
    template stored after the merge, whatever the answer: no output can
    fail the validation of [TemplateModel.create]. *)
Theorem merge_preserves_schema (store : Templates) (req : MergeRequest) :
  map_Forall (λ _ t, valid_template t = true) store →
  map_Forall (λ _ t, valid_template t = true) (merge store req).2.
Proof.
  intros Hs. unfold merge.
  destruct (req_templateId req) as [id|]; [|done].
  destruct (req_rows req) as [rows|]; [|done].
  destruct (_ || _); [done|].
  destruct (store !! id) as [template|] eqn:Hid; [|done].
  apply merge_rows_valid; [|done]. by apply (Hs id).
Qed.

Lemma merge_preserves_schema_witness :
  let store : Templates := {["t1" := base "SKU {{sku}}"]} in
  map_Forall (λ _ t, valid_template t = true) store
  ∧ map_Forall (λ _ t, valid_template t = true)
      (merge store (request (Some "f2") [ {["sku" := "A1"]}; ∅ ])).2.
Proof.
  intros store.
  assert (map_Forall (λ _ t, valid_template t = true) store) as Hstore.
  { intros id t [<- <-]%lookup_singleton_Some. by vm_compute. }
  split; [exact Hstore|]. by apply merge_preserves_schema.
Defined.

(** ** The folder handlers *)

Section delete_folder.
Context (folders : Folders) (templates : Templates).

Lemma returns_no_cycle_from rootId ids :
  returns folders rootId ids → no_cycle_from folders rootId.
Proof.
  intros [fuel Hfuel] x Hx Hcyc.
  rewrite (reachable_cycle_diverges folders rootId) in Hfuel; [done|eauto].
Qed.

Lemma returned_elem rootId ids x :
  returns folders rootId ids →
  x ∈ ids ↔ rtc (is_parent_of folders) rootId x.
Proof.
  intros Hret. apply returns_elem; [|done]. by eapply returns_no_cycle_from.
Qed.

Lemma returned_NoDup rootId ids :
  returns folders rootId ids → NoDup ids.
Proof.
  intros Hret. pose proof (returns_no_cycle_from _ _ Hret) as Hr.
  rewrite (returns_unique folders rootId _ ids
             (findDescendantFolderIds_result folders rootId Hr) Hret).
  rewrite result_levels. by apply levels_NoDup.
Qed.

Lemma in_folders_spec ids d :
  in_folders ids d = true ↔ ∃ p, tpl_folderId d = Some p ∧ p ∈ ids.
Proof.
  unfold in_folders. destruct (tpl_folderId d) as [p|].
  - rewrite bool_decide_eq_true. split; [eauto|]. by intros (? & [= <-] & ?).
  - split; [done|]. by intros (? & ? & _).
Qed.

Lemma templateIds_elem ids t :
  t ∈ (filter (λ d : string * Template, in_folders ids d.2 = true)
         (map_to_list templates)).*1
  ↔ ∃ d, templates !! t = Some d ∧ in_folders ids d = true.
Proof.
  rewrite list_elem_of_fmap. split.
  - intros ([t' d] & -> & [Hin Hd%elem_of_map_to_list]%list_elem_of_filter).
    eauto.
  - intros (d & Hd & Hin). exists (t, d). split; [done|].
    apply list_elem_of_filter. split; [done|]. by apply elem_of_map_to_list.
Qed.

Lemma templateIds_NoDup ids :
  NoDup (filter (λ d : string * Template, in_folders ids d.2 = true)
           (map_to_list templates)).*1.
Proof.
  eapply NoDup_fmap_fst.
  - intros t d1 d2 [_ H1%elem_of_map_to_list]%list_elem_of_filter
      [_ H2%elem_of_map_to_list]%list_elem_of_filter. congruence.
  - apply NoDup_filter, NoDup_map_to_list.
Qed.

(** The templates after the deletion, whether or not [deleteMany] is
    called. *)
Lemma deleteFolder_inv fuel id res folders' templates' :
  deleteFolder fuel folders templates id = Some (res, folders', templates') →
  ∃ ids,
    findDescendantFolderIds fuel folders id = Some ids
    ∧ deletedFolderIds res = ids
    ∧ deletedTemplateIds res
      = (filter (λ d : string * Template, in_folders ids d.2 = true)
           (map_to_list templates)).*1
    ∧ folders' = filter (λ d, d.1 ∉ ids) folders
    ∧ templates' = filter (λ d, in_folders ids d.2 ≠ true) templates.
Proof.
  unfold deleteFolder.
  destruct (findDescendantFolderIds fuel folders id) as [ids|]; [|done].
  intros [= <- <- <-]. exists ids. split_and!; try done.
  set (tids := (filter _ (map_to_list templates)).*1).
  assert (filter (λ d, d.1 ∉ tids) templates
          = filter (λ d, in_folders ids d.2 ≠ true) templates) as Heq.
  { apply map_filter_ext. intros t d Hd. simpl. unfold tids.
    rewrite templateIds_elem. split.
    - intros Hn Hin. apply Hn. eauto.
    - intros Hn (d' & Hd' & Hin). congruence. }
  destruct (negb _) eqn:Hlen; [done|].
  apply negb_false_iff, Nat.eqb_eq, nil_length_inv in Hlen.
  symmetry. apply map_filter_id. intros t d Hd Hin. simpl in Hin.
  assert (t ∈ tids) as Ht by (apply templateIds_elem; eauto).
  rewrite Hlen in Ht. by apply elem_of_nil in Ht.
Qed.

End delete_folder.



Section delete_folder_integrity.
Context (folders : Folders) (templates : Templates).


(** No folder that stays has a parent that goes. *)
Lemma survivor_parent rootId ids x f p :
  returns folders rootId ids →
  folders !! x = Some f → x ∉ ids → folder_parentId f = Some p → p ∉ ids.
Proof.
  intros Hret Hf Hx Hp Hin. apply Hx.
  apply (returned_elem folders rootId ids _ Hret).
  apply (returned_elem folders rootId ids _ Hret) in Hin.
  eapply rtc_r; [done|]. by exists f.
Qed.

Lemma size_filter_complement {A} (P : string * A → Prop)
    `{!∀ x, Decision (P x)} (m : gmap string A) :
  size (filter P m) + size (filter (λ x, ¬ P x) m) = size m.
Proof.
  rewrite <-map_size_disj_union by apply map_disjoint_filter_complement.
  by rewrite map_filter_union_complement.
Qed.

Lemma filter_fst_NoDup {A} (P : string * A → Prop)
    `{!∀ x, Decision (P x)} (m : gmap string A) :
  NoDup (filter P (map_to_list m)).*1.
Proof.
  eapply NoDup_fmap_fst.
  - intros t d1 d2 [_ H1%elem_of_map_to_list]%list_elem_of_filter
      [_ H2%elem_of_map_to_list]%list_elem_of_filter. congruence.
  - apply NoDup_filter, NoDup_map_to_list.
Qed.

Lemma size_filter_list {A} (P : string * A → Prop)
    `{!∀ x, Decision (P x)} (m : gmap string A) :
  size (filter P m) = length (filter P (map_to_list m)).
Proof.
  rewrite map_filter_alt, map_size_list_to_map by apply filter_fst_NoDup.
  done.
Qed.

Lemma size_filter_keys {A} (ids : list string) (m : gmap string A) :
  NoDup ids → (∀ x, x ∈ ids → is_Some (m !! x)) →
  size (filter (λ d, d.1 ∈ ids) m) = length ids.
Proof.
  intros Hnd Hin. rewrite size_filter_list.
  rewrite <-(length_fmap fst). apply Permutation_length, NoDup_Permutation.
  - apply filter_fst_NoDup.
  - done.
  - intros x. rewrite list_elem_of_fmap. split.
    + by intros ([x' d] & -> & [? _]%list_elem_of_filter).
    + intros Hx. destruct (Hin x Hx) as [d Hd]. exists (x, d).
      split; [done|]. apply list_elem_of_filter. split; [done|].
      by apply elem_of_map_to_list.
Qed.

Lemma returned_in_store rootId ids x :
  returns folders rootId ids → x ∈ ids → x = rootId ∨ is_Some (folders !! x).
Proof.
  intros Hret Hx. apply (returned_elem folders rootId ids _ Hret) in Hx.
  apply rtc_inv_r in Hx as [->|(y & _ & f & Hf & _)]; [by left|].
  right. by exists f.
Qed.

Lemma returned_head rootId ids :
  returns folders rootId ids → head ids = Some rootId.
Proof.
  intros Hret. pose proof (returns_no_cycle_from _ _ _ Hret) as Hr.
  by rewrite (returns_unique folders rootId _ ids
                (findDescendantFolderIds_result folders rootId Hr) Hret).
Qed.

End delete_folder_integrity.



(** X13. The answer of [DELETE /api/folders/:id] counts what went. The
    list of folder ids starts with [id] and the two lists have no
    duplicates; the template collection shrinks by the length of the
    template list, and, when [id] names a folder, the folder collection
    shrinks by the length of the folder list. *)
Theorem deleteFolder_counts
    (fuel : nat) (folders : Folders) (templates : Templates) (id : string)
    (res : DeleteResponse) (folders' : Folders) (templates' : Templates) :
  deleteFolder fuel folders templates id = Some (res, folders', templates') →
  head (deletedFolderIds res) = Some id
  ∧ NoDup (deletedFolderIds res)
  ∧ NoDup (deletedTemplateIds res)
  ∧ size templates' + length (deletedTemplateIds res) = size templates
  ∧ (is_Some (folders !! id) →
     size folders' + length (deletedFolderIds res) = size folders).
Proof.
  intros (ids & Hids & -> & -> & -> & ->)%deleteFolder_inv.
  assert (returns folders id ids) as Hret by (by exists fuel).
  split_and!.
  - by eapply returned_head.
  - by eapply returned_NoDup.
  - apply templateIds_NoDup.
  - rewrite length_fmap, <-size_filter_list.
    rewrite <-(size_filter_complement
                 (λ d, in_folders ids d.2 = true) templates). lia.
  - intros Hid.
    rewrite <-(size_filter_complement (λ d, d.1 ∈ ids) folders).
    rewrite (size_filter_keys ids folders); [lia|by eapply returned_NoDup|].
    intros x Hx. by destruct (returned_in_store folders id ids x Hret Hx)
      as [-> | ?].
Qed.

Lemma deleteFolder_counts_witness :
  ∃ res folders' templates',
    deleteFolder 5 example_tree example_templates "root"
    = Some (res, folders', templates')
    ∧ head (deletedFolderIds res) = Some "root"
    ∧ NoDup (deletedFolderIds res)
    ∧ NoDup (deletedTemplateIds res)
    ∧ size templates' + length (deletedTemplateIds res)
      = size example_templates
    ∧ (is_Some (example_tree !! "root") →
       size folders' + length (deletedFolderIds res) = size example_tree).
Proof.
  destruct (deleteFolder 5 example_tree example_templates "root")
    as [[[res folders'] templates']|] eqn:E; [|by vm_compute in E].
  exists res, folders', templates'. split; [done|].
  by apply (deleteFolder_counts 5 example_tree example_templates
              "root" res folders' templates').
Defined.

(** X14. Deleting again deletes nothing. After [DELETE /api/folders/:id]
    has answered, the same request is answered after two evaluations of
    the loop condition, lists [id] alone and no template, and leaves both
    collections as they are. *)
Theorem deleteFolder_twice
    (fuel : nat) (folders : Folders) (templates : Templates) (id : string)
    (res : DeleteResponse) (folders' : Folders) (templates' : Templates) :
  deleteFolder fuel folders templates id = Some (res, folders', templates') →
  deleteFolder 2 folders' templates' id
  = Some ({| deletedFolderIds := [id]; deletedTemplateIds := [] |},
          folders', templates').
Proof.
  intros Hdel.
  pose proof Hdel as (ids & Hids & Hres & _ & Hf & Ht)%deleteFolder_inv.
  assert (returns folders id ids) as Hret by (by exists fuel).
  assert (id ∈ ids) as Hid
    by (apply (returned_elem folders id ids _ Hret); apply rtc_refl).
  assert (find_by_parent folders' id = []) as Hch.
  { apply elem_of_nil_inv. intros c (f & Hc & Hp)%find_by_parent_spec.
    rewrite Hf in Hc. apply map_lookup_filter_Some in Hc as [Hc Hn].
    by eapply (survivor_parent folders id ids c f id). }
  unfold deleteFolder, findDescendantFolderIds. cbn [loop].
  rewrite Hch. cbn [app].
  assert ((filter (λ d : string * Template, in_folders [id] d.2 = true)
             (map_to_list templates')).*1 = []) as ->.
  { apply elem_of_nil_inv. intros t (d & Hd & Hin)%templateIds_elem.
    rewrite Ht in Hd. apply map_lookup_filter_Some in Hd as [Hd Hn].
    apply Hn. apply in_folders_spec.
    apply in_folders_spec in Hin as (p & Hp & ->%list_elem_of_singleton).
    eauto. }
  cbn [length Nat.eqb negb]. do 3 f_equal.
  apply map_filter_id. intros x f Hx Hin. simpl in Hin.
  apply list_elem_of_singleton in Hin as ->.
  rewrite Hf in Hx. by apply map_lookup_filter_Some in Hx as [_ Hn].
Qed.

Lemma deleteFolder_twice_witness :
  ∃ res folders' templates',
    deleteFolder 5 example_tree example_templates "child1"
    = Some (res, folders', templates')
    ∧ deleteFolder 2 folders' templates' "child1"
      = Some ({| deletedFolderIds := ["child1"]; deletedTemplateIds := [] |},
              folders', templates').
Proof.
  destruct (deleteFolder 5 example_tree example_templates "child1")
    as [[[res folders'] templates']|] eqn:E; [|by vm_compute in E].
  exists res, folders', templates'. split; [done|].
  by apply (deleteFolder_twice 5 example_tree example_templates
              "child1" res folders' templates').
Defined.

Section create_folder.
Context (folders : Folders) (new : string) (doc : Folder).
Hypothesis Hclosed : closed folders.
Hypothesis Hnew : folders !! new = None.
Hypothesis Hparent :
  ∀ p, folder_parentId doc = Some p → is_Some (folders !! p).

Local Abbreviation R := (is_parent_of folders).
Local Abbreviation R' := (is_parent_of (<[new := doc]> folders)).

Lemma parent_insert a b :
  R' a b ↔ (b = new ∧ folder_parentId doc = Some a) ∨ R a b.
Proof.
  split.
  - intros (f & Hf & Hp). apply lookup_insert_Some in Hf as [[<- <-]|[? Hf]].
    + by left.
    + right. by exists f.
  - intros [[-> Hp]|(f & Hf & Hp)].
    + exists doc. by rewrite lookup_insert_eq.
    + exists f. split; [|done]. rewrite lookup_insert_ne; [done|].
      intros <-. congruence.
Qed.

(** The new folder has no child. *)
Lemma new_leaf c : ¬ R' new c.
Proof.
  intros [[-> Hp]|(f & Hf & Hp)]%parent_insert.
  - destruct (Hparent new Hp) as [? ?]. congruence.
  - destruct (Hclosed c f new Hf Hp) as [? ?]. congruence.
Qed.

Lemma rtc_insert x z :
  rtc R' x z ↔
  rtc R x z ∨ (z = new ∧ ∃ p, folder_parentId doc = Some p ∧ rtc R x p).
Proof.
  split.
  - revert z. apply rtc_ind_r; [left; apply rtc_refl|].
    intros y z Hxy Hyz IH.
    destruct IH as [IH|[-> _]]; [|by apply new_leaf in Hyz].
    apply parent_insert in Hyz as [[-> Hp]|Hyz].
    + right. eauto.
    + left. by eapply rtc_r.
  - intros [H|(-> & p & Hp & H)].
    + eapply rtc_subrel; [|done]. intros a b Hab. apply parent_insert. by right.
    + eapply rtc_r.
      * eapply rtc_subrel; [|done]. intros a b Hab. apply parent_insert.
        by right.
      * apply parent_insert. by left.
Qed.

Lemma tc_insert x z : tc R' x z → z ≠ new → tc R x z.
Proof.
  induction 1 as [x z Hxz|x y z Hxy Hyz IH]; intros Hz.
  - apply parent_insert in Hxz as [[-> _]|Hxz]; [done|]. by apply tc_once.
  - apply parent_insert in Hxy as [[-> _]|Hxy].
    + apply tc_inv_first in Hyz as (c & Hc & _). by apply new_leaf in Hc.
    + eapply tc_l; [done|]. by apply IH.
Qed.

Lemma cycle_insert x : tc R' x x → tc R x x.
Proof.
  intros H. apply tc_insert; [done|]. intros ->.
  apply tc_inv_first in H as (c & Hc & _). by apply new_leaf in Hc.
Qed.

Lemma closed_insert : closed (<[new := doc]> folders).
Proof.
  intros x f p Hf Hp.
  assert (is_Some (folders !! p)) as [g Hg].
  { apply lookup_insert_Some in Hf as [[<- <-]|[? Hf]]; [by apply Hparent|].
    by eapply Hclosed. }
  exists g. rewrite lookup_insert_ne; [done|]. intros <-. congruence.
Qed.

End create_folder.

Lemma closedb_sound folders : closedb folders = true → closed folders.
Proof.
  unfold closedb. rewrite forallb_Forall, Forall_forall.
  intros H x f p Hf Hp. apply elem_of_map_to_list in Hf.
  specialize (H _ Hf). simpl in H. rewrite Hp in H.
  by apply bool_decide_eq_true in H.
Qed.

Lemma homedb_sound folders templates :
  homedb folders templates = true → homed folders templates.
Proof.
  unfold homedb. rewrite forallb_Forall, Forall_forall.
  intros H t d p Hd Hp. apply elem_of_map_to_list in Hd.
  specialize (H _ Hd). simpl in H. rewrite Hp in H.
  by apply bool_decide_eq_true in H.
Qed.

Lemma createFolder_inv folders body r folders' :
  createFolder folders body = (FolderCreated r, folders') →
  ∃ name,
    body_name body = Some name ∧ name ≠ ""
    ∧ let doc := {| folder_name := name;
                    folder_parentId := body_parentId body |} in
      r = mapFolder (fresh (dom folders)) doc
      ∧ folders' = <[fresh (dom folders) := doc]> folders.
Proof.
  unfold createFolder. destruct (body_name body) as [name|]; [|done].
  simpl. case_bool_decide as Hname; simpl; [done|].
  rewrite nullish_None_r. intros [= <- <-]. by exists name.
Qed.

(** X15. [POST /api/folders] keeps the folder tree well formed. In a
    collection in which every parent id names a folder, a folder created
    without a parent or under an existing folder is stored under an id that
    was free, with a name the schema accepts; it has no child, every parent
    id still names a folder, every template's folder is still there, and no
    folder becomes its own ancestor. *)
Theorem createFolder_keeps_integrity
    (folders : Folders) (body : FolderBody) (r : FolderResponse)
    (folders' : Folders) :
  createFolder folders body = (FolderCreated r, folders') →
  closed folders →
  (∀ p, body_parentId body = Some p → is_Some (folders !! p)) →
  folders !! fres_id r = None
  ∧ (∃ f, folders' !! fres_id r = Some f ∧ valid_folder f = true
          ∧ folder_parentId f = body_parentId body)
  ∧ (∀ c, ¬ is_parent_of folders' (fres_id r) c)
  ∧ folders ⊆ folders'
  ∧ closed folders'
  ∧ (∀ templates, homed folders templates → homed folders' templates)
  ∧ (acyclic folders → acyclic folders').
Proof.
  intros (name & Hname & Hne & -> & ->)%createFolder_inv Hclosed Hparent.
  simpl. set (new := fresh (dom folders)).
  set (doc := {| folder_name := name; folder_parentId := _ |}).
  assert (folders !! new = None) as Hnew by apply not_elem_of_dom, is_fresh.
  split_and!.
  - done.
  - exists doc. rewrite lookup_insert_eq. split_and!; try done.
    by apply required_nonempty.
  - intros c. by apply (new_leaf folders new doc Hclosed Hnew Hparent).
  - by apply insert_subseteq.
  - by apply (closed_insert folders new doc Hclosed Hnew Hparent).
  - intros templates Hh t d p Hd Hp. destruct (Hh t d p Hd Hp) as [g Hg].
    exists g. rewrite lookup_insert_ne; [done|]. intros <-. congruence.
  - intros Ha x Hx. apply (Ha x).
    by apply (cycle_insert folders new doc Hclosed Hnew Hparent).
Qed.

Lemma createFolder_keeps_integrity_witness :
  let body := {| body_name := Some "New"; body_parentId := Some "child1" |} in
  ∃ r folders',
    createFolder example_tree body = (FolderCreated r, folders')
    ∧ example_tree !! fres_id r = None
    ∧ (∃ f, folders' !! fres_id r = Some f ∧ valid_folder f = true
            ∧ folder_parentId f = body_parentId body)
    ∧ (∀ c, ¬ is_parent_of folders' (fres_id r) c)
    ∧ example_tree ⊆ folders'
    ∧ closed folders'
    ∧ (∀ templates, homed example_tree templates → homed folders' templates)
    ∧ (acyclic example_tree → acyclic folders').
Proof.
  intros body. eexists _, _. split; [reflexivity|].
  apply (createFolder_keeps_integrity example_tree body).
  - reflexivity.
  - apply closedb_sound. by vm_compute.
  - intros p [= <-]. vm_compute. by eexists.
Defined.

(** X16. The closure after a creation. In a collection in which every
    parent id names a folder, after a folder was created without a parent
    or under an existing folder, [findDescendantFolderIds] still returns
    for every root it returned for, with the ids of before, and the new id
    exactly when the parent of the new folder is among them. *)
Theorem createFolder_closure
    (folders : Folders) (body : FolderBody) (r : FolderResponse)
    (folders' : Folders) (rootId : string) (ids : list string) :
  createFolder folders body = (FolderCreated r, folders') →
  closed folders →
  (∀ p, body_parentId body = Some p → is_Some (folders !! p)) →
  returns folders rootId ids →
  ∃ ids',
    returns folders' rootId ids'
    ∧ ∀ x, x ∈ ids' ↔
           x ∈ ids
           ∨ (x = fres_id r ∧ ∃ p, body_parentId body = Some p ∧ p ∈ ids).
Proof.
  intros (name & Hname & Hne & -> & ->)%createFolder_inv Hclosed Hparent Hret.
  simpl. set (new := fresh (dom folders)).
  set (doc := {| folder_name := name; folder_parentId := _ |}).
  assert (folders !! new = None) as Hnew by apply not_elem_of_dom, is_fresh.
  pose proof (returns_no_cycle_from folders rootId ids Hret) as Hr.
  assert (no_cycle_from (<[new := doc]> folders) rootId) as Hr'.
  { intros x Hx Hcyc.
    apply (cycle_insert folders new doc Hclosed Hnew Hparent) in Hcyc.
    apply (rtc_insert folders new doc Hclosed Hnew Hparent) in Hx
      as [Hx|(-> & _)].
    - by apply (Hr x).
    - apply tc_inv_last in Hcyc as (y & _ & f & Hf & _). congruence. }
  eexists. split; [by apply findDescendantFolderIds_result|].
  intros x. rewrite result_elem by done.
  rewrite (rtc_insert folders new doc Hclosed Hnew Hparent).
  rewrite <-(returned_elem folders rootId ids x Hret).
  by setoid_rewrite <-(returned_elem folders rootId ids _ Hret).
Qed.

Lemma createFolder_closure_witness :
  let body := {| body_name := Some "New"; body_parentId := Some "child1" |} in
  ∃ r folders' ids',
    createFolder example_tree body = (FolderCreated r, folders')
    ∧ returns folders' "root" ids'
    ∧ ∀ x, x ∈ ids' ↔
           x ∈ ["root"; "child1"; "child2"; "grandchild"]
           ∨ (x = fres_id r
              ∧ ∃ p, body_parentId body = Some p
                     ∧ p ∈ ["root"; "child1"; "child2"; "grandchild"]).
Proof.
  intros body.
  destruct (createFolder_closure example_tree body
              (mapFolder (fresh (dom example_tree))
                 {| folder_name := "New"; folder_parentId := Some "child1" |})
              (<[fresh (dom example_tree) :=
                   {| folder_name := "New";
                      folder_parentId := Some "child1" |}]> example_tree)
              "root" ["root"; "child1"; "child2"; "grandchild"])
    as (ids' & Hret & Hids).
  - reflexivity.
  - apply closedb_sound. by vm_compute.
  - intros p [= <-]. vm_compute. by eexists.
  - exists 5. by vm_compute.
  - by eexists _, _, ids'.
Defined.

(** ** White space and [trim] *)

Import Cors.

Lemma chars_inj s t : chars s = chars t → s = t.
Proof.
  intros H. by rewrite <-(string_of_list_ascii_of_string s),
    <-(string_of_list_ascii_of_string t), H.
Qed.

Lemma chars_rev_app s1 s2 : chars (String.rev_app s1 s2) = rev (chars s1) ++ chars s2.
Proof.
  revert s2. induction s1 as [|c s1 IH]; intros s2; simpl; [done|].
  by rewrite IH, <-app_assoc.
Qed.

Lemma chars_rev s : chars (String.rev s) = rev (chars s).
Proof. unfold String.rev. by rewrite chars_rev_app, app_nil_r. Qed.

Lemma chars_trimStart s : chars (trimStart s) = trimStartL (chars s).
Proof.
  induction s as [|c s IH]; simpl; [done|]. by destruct (is_space c).
Qed.

Lemma chars_trimEnd s : chars (trimEnd s) = rev (trimStartL (rev (chars s))).
Proof. unfold trimEnd. by rewrite chars_rev, chars_trimStart, chars_rev. Qed.

Lemma chars_trim s :
  chars (trim s) = rev (trimStartL (rev (trimStartL (chars s)))).
Proof. unfold trim. by rewrite chars_trimEnd, chars_trimStart. Qed.

Lemma trimStartL_head l :
  match trimStartL l with
  | c :: _ => is_space c = false
  | [] => True
  end.
Proof.
  induction l as [|c l IH]; simpl; [done|].
  by destruct (is_space c) eqn:E.
Qed.

Lemma trimStartL_id c l : is_space c = false → trimStartL (c :: l) = c :: l.
Proof. intros H. simpl. by rewrite H. Qed.

Lemma trimStartL_idemp l : trimStartL (trimStartL l) = trimStartL l.
Proof.
  pose proof (trimStartL_head l) as H.
  destruct (trimStartL l) as [|c l']; [done|]. by apply trimStartL_id.
Qed.

(** Leading white space goes, and nothing after a character that is not. *)
Lemma trimStartL_snoc l c :
  is_space c = false → ∃ l', trimStartL (l ++ [c]) = l' ++ [c].
Proof.
  intros Hc. induction l as [|a l IH]; simpl.
  - rewrite Hc. by exists [].
  - destruct (is_space a); [done|]. by exists (a :: l).
Qed.

Lemma trimStartL_suffix l : trimStartL l `suffix_of` l.
Proof.
  induction l as [|c l IH]; simpl; [done|].
  destruct (is_space c); [|done]. by apply suffix_cons_r.
Qed.

Lemma trimStartL_spaces l :
  Forall (λ c, is_space c = true) l → trimStartL l = [].
Proof. induction 1 as [|c l Hc _ IH]; simpl; [done|]. by rewrite Hc. Qed.

(** What [trim] leaves has no white space in front. *)
Lemma trimL_front l :
  let y := trimStartL (rev (trimStartL l)) in
  trimStartL (rev y) = rev y.
Proof.
  pose proof (trimStartL_head l) as Hx.
  destruct (trimStartL l) as [|c x]; [done|]. simpl rev.
  destruct (trimStartL_snoc (rev x) c Hx) as [l' ->]. simpl.
  rewrite rev_unit. by apply trimStartL_id.
Qed.

Lemma trim_idemp s : trim (trim s) = trim s.
Proof.
  apply chars_inj. rewrite (chars_trim (trim s)), (chars_trim s).
  rewrite (trimL_front (chars s)), rev_involutive. by rewrite trimStartL_idemp.
Qed.

Lemma trim_spaces s :
  Forall (λ c, is_space c = true) (chars s) → trim s = "".
Proof.
  intros H. apply chars_inj. rewrite chars_trim.
  by rewrite (trimStartL_spaces _ H).
Qed.

Lemma elem_of_rev {A} (l : list A) x : x ∈ rev l ↔ x ∈ l.
Proof. rewrite !list_elem_of_In. symmetry. apply in_rev. Qed.

Lemma trimStartL_elem l c : c ∈ trimStartL l → c ∈ l.
Proof.
  induction l as [|a l IH]; simpl; [done|].
  destruct (is_space a); [|done]. intros H. right. by apply IH.
Qed.

Lemma trim_chars s c : c ∈ chars (trim s) → c ∈ chars s.
Proof.
  rewrite chars_trim, elem_of_rev.
  intros H. apply trimStartL_elem in H. rewrite elem_of_rev in H.
  by apply trimStartL_elem.
Qed.

(** ** The CORS options *)

Lemma split_cons sep c s :
  split sep (String c s)
  = if Ascii.eqb c sep then "" :: split sep s
    else match split sep s with
         | piece :: pieces => String c piece :: pieces
         | [] => [String c ""]
         end.
Proof. reflexivity. Qed.

Lemma split_not_nil sep s : split sep s ≠ [].
Proof.
  induction s as [|c s IH]; [done|]. rewrite split_cons.
  destruct (Ascii.eqb c sep); [done|]. by destruct (split sep s).
Qed.

(** The pieces hold characters of the string, and never the separator. *)
Lemma split_chars sep s piece :
  piece ∈ split sep s →
  (sep ∉ chars piece) ∧ ∀ c, c ∈ chars piece → c ∈ chars s.
Proof.
  revert piece. induction s as [|a s IH]; intros piece.
  { intros ->%list_elem_of_singleton. split; [apply not_elem_of_nil|done]. }
  rewrite split_cons. destruct (Ascii.eqb a sep) eqn:Ha.
  - intros [->|Hin]%elem_of_cons.
    + split; [apply not_elem_of_nil|]. by intros c ?%elem_of_nil.
    + destruct (IH piece Hin) as [Hsep Hsub]. split; [done|].
      intros c Hc. right. by apply Hsub.
  - pose proof (split_not_nil sep s) as Hne.
    destruct (split sep s) as [|p ps]; [done|].
    intros [->|Hin]%elem_of_cons.
    + destruct (IH p) as [Hsep Hsub]; [by left|]. split.
      * intros [<-|?]%elem_of_cons; [|done]. by rewrite Ascii.eqb_refl in Ha.
      * intros c [->|Hc]%elem_of_cons; [by left|]. right. by apply Hsub.
    + destruct (IH piece) as [Hsep Hsub]; [by right|]. split; [done|].
      intros c Hc. right. by apply Hsub.
Qed.

(** Splitting at a separator splits the list of pieces. *)
Lemma split_app sep a b :
  split sep (a +:+ String sep b) = split sep a ++ split sep b.
Proof.
  induction a as [|c a IH].
  - rewrite str_app_nil_l, split_cons, Ascii.eqb_refl. done.
  - rewrite str_app_cons, !split_cons, IH.
    destruct (Ascii.eqb c sep); [done|].
    pose proof (split_not_nil sep a) as Hne.
    by destruct (split sep a).
Qed.

Lemma allowedOrigins_elem raw e :
  e ∈ filter (λ origin, truthy (str origin) = true) (trim <$> split "," raw)
  ↔ e ≠ "" ∧ ∃ piece, piece ∈ split "," raw ∧ e = trim piece.
Proof.
  rewrite list_elem_of_filter, list_elem_of_fmap. simpl.
  rewrite negb_true_iff, bool_decide_eq_false.
  split; intros [? (p & ? & ?)]; eauto.
Qed.

(** X17. The entries of [allowedOrigins]. Every entry is a non-empty
    string without a comma and without white space at either end. *)
Theorem allowedOrigins_entries
    (rawOrigins : option string) (origins : list string) :
  allowedOrigins rawOrigins = Some origins →
  Forall (λ e, e ≠ "" ∧ trim e = e ∧ ("," : ascii) ∉ chars e) origins.
Proof.
  destruct rawOrigins as [raw|]; [|done]. intros [= <-].
  apply Forall_forall.
  intros e (Hne & piece & Hpiece & ->)%allowedOrigins_elem.
  split; [done|]. split; [apply trim_idemp|].
  intros Hc%trim_chars. by apply (split_chars _ _ _ Hpiece).
Qed.

Lemma allowedOrigins_entries_witness :
  Forall (λ e, e ≠ "" ∧ trim e = e ∧ ("," : ascii) ∉ chars e)
    ["https://a.example"; "http://b.example"].
Proof.
  apply (allowedOrigins_entries
           (Some " https://a.example , ,http://b.example,")).
  by vm_compute.
Defined.

Lemma corsOptions_list rawOrigins origins origin :
  allowedOrigins rawOrigins = Some origins →
  allowed rawOrigins origin
  = match origins, origin with
    | [], _ | _, None => true
    | _, Some o =>
        bool_decide (o = "") || bool_decide ("*" ∈ origins)
        || bool_decide (o ∈ origins)
    end.
Proof.
  intros H. unfold allowed, corsOptions. rewrite H.
  destruct origins as [|e origins]; [done|]. simpl.
  destruct origin as [o|]; [|done]. simpl. by rewrite negb_involutive.
Qed.

(** X18. The order of the entries does not matter: exchanging the two
    sides of a comma in [APP_ORIGIN] changes the answer for no origin. *)
Theorem allowed_order (a b : string) (origin : option string) :
  allowed (Some (a +:+ "," +:+ b)) origin
  = allowed (Some (b +:+ "," +:+ a)) origin.
Proof.
  set (keep := λ l : list string,
                filter (λ origin, truthy (str origin) = true) l).
  assert (∀ x y, allowedOrigins (Some (x +:+ "," +:+ y))
                 = Some (keep (trim <$> split "," x)
                         ++ keep (trim <$> split "," y))) as Hsplit.
  { intros x y. unfold allowedOrigins, keep.
    change ("," +:+ y) with (String "," y).
    by rewrite split_app, fmap_app, filter_app. }
  rewrite (corsOptions_list _ _ _ (Hsplit a b)).
  rewrite (corsOptions_list _ _ _ (Hsplit b a)).
  set (la := keep (trim <$> split "," a)).
  set (lb := keep (trim <$> split "," b)).
  assert (∀ x : string, bool_decide (x ∈ la ++ lb)
                        = bool_decide (x ∈ lb ++ la)) as Hin.
  { intros x. apply bool_decide_ext. rewrite !elem_of_app. tauto. }
  destruct la as [|ea la], lb as [|eb lb]; try done.
  - by rewrite app_nil_r.
  - by rewrite app_nil_r.
  - destruct origin as [o|]; [|done]. simpl app in *. by rewrite !Hin.
Qed.

(** X19. Without entries every origin is allowed. When [APP_ORIGIN] is
    not set, or holds nothing but commas and white space, the options are
    [{ origin: true }]: no request is turned away. *)
Theorem allowed_without_entries
    (rawOrigins : option string) (origin : option string) :
  (∀ raw c, rawOrigins = Some raw → c ∈ chars raw →
            c = ","%char ∨ is_space c = true) →
  corsOptions rawOrigins = origin_true ∧ allowed rawOrigins origin = true.
Proof.
  intros Hblank. unfold allowed.
  assert (corsOptions rawOrigins = origin_true) as ->; [|done].
  unfold corsOptions. destruct rawOrigins as [raw|]; [|done].
  cbn [allowedOrigins].
  assert (filter (λ origin, truthy (str origin) = true)
            (trim <$> split "," raw) = []) as ->; [|done].
  apply elem_of_nil_inv.
  intros e (Hne & piece & Hpiece & ->)%allowedOrigins_elem.
  apply Hne, trim_spaces, Forall_forall. intros c Hc.
  destruct (split_chars _ _ _ Hpiece) as [Hsep Hsub].
  destruct (Hblank raw c eq_refl (Hsub c Hc)) as [-> | ?]; done.
Qed.

Lemma allowed_without_entries_witness :
  corsOptions (Some " , ,") = origin_true
  ∧ allowed (Some " , ,") (Some "https://a.example") = true.
Proof.
  apply allowed_without_entries. intros raw c [= <-] Hc.
  vm_compute in Hc.
  repeat (apply elem_of_cons in Hc as [-> | Hc]; [by vm_compute; auto|]).
  by apply elem_of_nil in Hc.
Defined.

(** ** The template handlers *)

Import TemplateApi.

Lemma findOne_Some store name folderId id t :
  findOne store name folderId = Some (id, t) →
  store !! id = Some t ∧ tpl_name t = name ∧ tpl_folderId t = folderId.
Proof.
  unfold findOne. intros H%head_Some_elem_of.
  apply list_elem_of_filter in H as [[? ?] Hin%elem_of_map_to_list]. done.
Qed.

Lemma findOne_None store name folderId id t :
  findOne store name folderId = None → store !! id = Some t →
  ¬ (tpl_name t = name ∧ tpl_folderId t = folderId).
Proof.
  unfold findOne. intros H%head_None Ht Hkey.
  assert ((id, t) ∈ filter (λ d : string * Template,
                              tpl_name d.2 = name ∧ tpl_folderId d.2 = folderId)
                      (map_to_list store)) as Hin.
  { apply list_elem_of_filter. split; [done|]. by apply elem_of_map_to_list. }
  rewrite H in Hin. by apply elem_of_nil in Hin.
Qed.

Lemma validate_complete body :
  validateTemplatePayload (with_folderId body) = true ↔ complete body.
Proof.
  unfold validateTemplatePayload, complete. simpl.
  rewrite !andb_true_iff, !bool_decide_eq_true. split; [tauto|].
  intros (? & ? & ? & ?). by split_and!.
Qed.

Lemma narrowed_complete body :
  complete body →
  ∃ name width height items,
    payload_name body = Some name ∧ payload_width body = Some width
    ∧ payload_height body = Some height ∧ payload_items body = Some items
    ∧ narrowed (with_folderId body)
      = Some {| create_name := name;
                create_folderId := default None (payload_folderId body);
                create_width := width; create_height := height;
                create_items := items |}.
Proof.
  intros ([name Hn] & [width Hw] & [height Hh] & [items Hi]).
  exists name, width, height, items. split_and!; try done.
  unfold narrowed. simpl. rewrite Hn, Hw, Hh, Hi, nullish_None_r. done.
Qed.

(** X20. The guard and the folder. [POST /api/templates] and
    [PUT /api/templates/:id] answer 400 exactly when [name], [width],
    [height] or [items] is missing or of the wrong type, and then store
    nothing; the [folderId] test of the guard never fails, since the
    handlers set the key before they call it. *)
Theorem template_bad_request (store : Templates) (id : string)
    (body : TemplatePayload) :
  ((postTemplate store body).1 = TemplateBadRequest ↔ ¬ complete body)
  ∧ ((putTemplate store id body).1 = TemplateBadRequest ↔ ¬ complete body)
  ∧ (¬ complete body →
     (postTemplate store body).2 = store
     ∧ (putTemplate store id body).2 = store).
Proof.
  unfold postTemplate, putTemplate.
  destruct (validateTemplatePayload (with_folderId body)) eqn:Hv; simpl.
  - apply validate_complete in Hv.
    destruct (narrowed_complete body Hv) as (n & w & h & i & _ & _ & _ & _ & ->).
    simpl. split_and!.
    + split; [|done]. destruct (findOne _ _ _) as [[id' existing]|].
      * by destruct (valid_template _).
      * destruct (valid_template _); [|done]. by unfold create.
    + split; [|done]. by destruct (store !! id).
    + done.
  - assert (¬ complete body) as Hc
      by (rewrite <-validate_complete; congruence).
    done.
Qed.

Section post_template.
Context (store : Templates) (body : TemplatePayload).

Lemma postTemplate_case : post_case store body (postTemplate store body).
Proof.
  unfold postTemplate.
  destruct (validateTemplatePayload _); simpl; [|by constructor].
  destruct (narrowed _) as [p|] eqn:Hp; [|by constructor].
  rewrite nullish_None_r.
  destruct (findOne _ _ _) as [[id existing]|] eqn:Hfind.
  - apply findOne_Some in Hfind as (Hid & Hname & Hfolder).
    destruct (valid_template _) eqn:Hvalid; [|by constructor].
    by eapply post_saved.
  - destruct (valid_template _) eqn:Hvalid; [|by constructor].
    unfold create. eapply post_created; try done.
    + intros id' t. by apply findOne_None.
    + apply not_elem_of_dom, is_fresh.
Qed.

End post_template.

(** X21. [POST /api/templates] makes no second template of a name in a
    folder. When no two stored templates have the same name in the same
    folder, this is still so after the request, whatever the answer. *)
Theorem postTemplate_unique_names (store : Templates) (body : TemplatePayload) :
  unique_names store → unique_names (postTemplate store body).2.
Proof.
  intros Hu.
  destruct (postTemplate_case store body)
    as [response _|p id existing saved Hp Hid Hname Hfolder -> _
       |p id template Hp Hnone Hid -> _]; simpl; [done| |].
  - intros id1 id2 t1 t2.
    rewrite !lookup_insert_Some.
    intros [[<- <-]|[? H1]] [[<- <-]|[? H2]]; simpl; try done.
    + intros ? ?. by apply (Hu id id2 existing t2).
    + intros ? ?. by apply (Hu id1 id t1 existing).
    + by apply Hu.
  - intros id1 id2 t1 t2.
    rewrite !lookup_insert_Some.
    intros [[<- <-]|[? H1]] [[<- <-]|[? H2]]; simpl; try done.
    + intros ? ?. by destruct (Hnone id2 t2 H2).
    + intros ? ?. by destruct (Hnone id1 t1 H1).
    + by apply Hu.
Qed.

Lemma postTemplate_unique_names_witness :
  let store : Templates := {["t1" := base "SKU {{sku}}"]} in
  unique_names store
  ∧ unique_names (postTemplate store (example_body "Base" "{{code}}")).2.
Proof.
  intros store.
  assert (unique_names store) as Hstore.
  { intros id1 id2 t1 t2 [<- _]%lookup_singleton_Some
      [<- _]%lookup_singleton_Some. done. }
  split; [exact Hstore|]. by apply postTemplate_unique_names.
Defined.

Lemma extracted_covers items fields old :
  fields = (if negb (length (extractFieldsFromItems items) =? 0)
            then extractFieldsFromItems items else old) →
  ∀ item w, item ∈ items → scanned item = true →
            w ∈ names (item_content item) → w ∈ field_name <$> fields.
Proof.
  intros -> item w Hitem Hs Hw.
  destruct (name_extracted items item w Hitem Hs Hw) as (f & Hf & <-).
  destruct (extractFieldsFromItems items) as [|f' fs] eqn:E.
  - by apply elem_of_nil in Hf.
  - cbn [length Nat.eqb negb]. apply list_elem_of_fmap. eauto.
Qed.

(** X22. A saved template has a field for every placeholder. Whenever
    [POST /api/templates], [PUT /api/templates/:id] or the refresh of the
    fields answers with a template, that template is the one stored under
    its id, and every placeholder name in its TEXT items is the name of
    one of its fields (fields of before may be among them). *)
Theorem saved_template_covered
    (store : Templates) (id : string) (body : TemplatePayload)
    (run : TemplateAnswer * Templates) (r : TemplateResponse) :
  run = postTemplate store body ∨ run = putTemplate store id body
  ∨ run = refreshFields store id →
  answered run.1 = Some r →
  run.2 !! res_id r = Some (res_doc r) ∧ covered (res_doc r).
Proof.
  intros [-> | [-> | ->]].
  - destruct (postTemplate_case store body)
      as [response Hr|p id' existing saved Hp Hid Hname Hfolder -> _
         |p id' template Hp Hnone Hid -> _]; simpl.
    + congruence.
    + intros [= <-]. simpl. rewrite lookup_insert_eq. split; [done|].
      intros item w. by apply extracted_covers with (old := tpl_fields existing).
    + intros [= <-]. simpl. rewrite lookup_insert_eq. split; [done|].
      intros item w. apply extracted_covers with (old := []). simpl.
      by destruct (extractFieldsFromItems _).
  - unfold putTemplate. destruct (validateTemplatePayload _); [|done]. simpl.
    destruct (narrowed _) as [p|]; [|done].
    destruct (store !! id) as [old|]; [|done]. simpl.
    intros [= <-]. simpl. rewrite lookup_insert_eq. split; [done|].
    intros item w. by apply extracted_covers with (old := tpl_fields old).
  - unfold refreshFields. destruct (store !! id) as [t|]; [|done].
    destruct (valid_template _); [|done]. simpl.
    intros [= <-]. simpl. rewrite lookup_insert_eq. split; [done|].
    intros item w. apply extracted_covers with (old := []). simpl.
    by destruct (extractFieldsFromItems _).
Qed.

Lemma saved_template_covered_witness :
  let store : Templates := {["t1" := base "SKU {{sku}}"]} in
  let run := putTemplate store "t1" (example_body "Base" "no placeholder") in
  ∃ r, answered run.1 = Some r
       ∧ run.2 !! res_id r = Some (res_doc r) ∧ covered (res_doc r).
Proof.
  intros store run. eexists. split; [reflexivity|].
  apply (saved_template_covered store "t1"
           (example_body "Base" "no placeholder") run).
  - right. by left.
  - reflexivity.
Defined.

(** X23. The refresh brings the fields in line with the items. When it
    answers with a template, the fields of that template are the fields
    extracted from its items, which are then also its effective fields for
    a merge; nothing else of the template and no other template changes;
    and a second refresh answers the same and changes nothing. *)
Theorem refreshFields_syncs
    (store store' : Templates) (id : string) (r : TemplateResponse) :
  refreshFields store id = (TemplateOk r, store') →
  res_id r = id
  ∧ tpl_fields (res_doc r) = extractFieldsFromItems (tpl_items (res_doc r))
  ∧ effectiveFields (res_doc r) = tpl_fields (res_doc r)
  ∧ (∃ old, store !! id = Some old
            ∧ res_doc r = set_content old (tpl_width old) (tpl_height old)
                            (tpl_items old)
                            (extractFieldsFromItems (tpl_items old)))
  ∧ store' = <[id := res_doc r]> store
  ∧ refreshFields store' id = (TemplateOk r, store').
Proof.
  unfold refreshFields at 1. destruct (store !! id) as [old|] eqn:Hid; [|done].
  destruct (valid_template _) eqn:Hvalid; [|done].
  intros [= <- <-]. simpl. split_and!; try done.
  - unfold effectiveFields. simpl. by destruct (negb _).
  - by exists old.
  - unfold refreshFields. rewrite lookup_insert_eq. simpl. rewrite Hvalid.
    by rewrite insert_insert_eq.
Qed.

Lemma refreshFields_syncs_witness :
  let stale :=
    {| tpl_name := "Stale"; tpl_folderId := None;
       tpl_width := 100; tpl_height := 50;
       tpl_items := [text_item "a" "{{code}}"]; tpl_role := draft;
       tpl_fields := extractFieldsFromItems [text_item "b" "{{sku}}"] |} in
  let store : Templates := {["t1" := stale]} in
  ∃ r store',
    refreshFields store "t1" = (TemplateOk r, store')
    ∧ res_id r = "t1"
    ∧ tpl_fields (res_doc r) = extractFieldsFromItems (tpl_items (res_doc r))
    ∧ effectiveFields (res_doc r) = tpl_fields (res_doc r)
    ∧ (∃ old, store !! "t1" = Some old
              ∧ res_doc r = set_content old (tpl_width old) (tpl_height old)
                              (tpl_items old)
                              (extractFieldsFromItems (tpl_items old)))
    ∧ store' = <[ "t1" := res_doc r]> store
    ∧ refreshFields store' "t1" = (TemplateOk r, store').
Proof.
  intros stale store. eexists _, _. split; [reflexivity|].
  by apply (refreshFields_syncs store).
Defined.

(** X24. After [POST /api/templates] has created a template, the same
    request again finds it and answers 200 with the same template, a
    refresh of its fields answers the same, both without a change of the
    collection; and deleting it gives back the collection of before. *)
Theorem postTemplate_created_again
    (store store' : Templates) (body : TemplatePayload)
    (r : TemplateResponse) :
  postTemplate store body = (TemplateCreated r, store') →
  store !! res_id r = None
  ∧ tpl_role (res_doc r) = draft
  ∧ postTemplate store' body = (TemplateOk r, store')
  ∧ refreshFields store' (res_id r) = (TemplateOk r, store')
  ∧ deleteTemplate store' (res_id r) = (TemplateNoContent, store).
Proof.
  intros Hpost. pose proof (postTemplate_case store body) as Hcase.
  rewrite Hpost in Hcase.
  inversion Hcase as [response Hr| |p id template Hp Hnone Hid Ht Hvalid];
    [done|]. subst r store'. simpl.
  assert (tpl_fields template = extractFieldsFromItems (tpl_items template))
    as Hsync by (by rewrite Ht).
  assert (template
          = set_content template (tpl_width template) (tpl_height template)
              (tpl_items template) (tpl_fields template)) as Hsame
    by (by rewrite Ht).
  split_and!.
  - done.
  - by rewrite Ht.
  - unfold postTemplate.
    rewrite (proj2 (validate_complete body)); simpl.
    2:{ unfold narrowed in Hp. simpl in Hp. unfold complete.
        destruct (payload_name body), (payload_width body),
          (payload_height body), (payload_items body); done. }
    rewrite Hp, nullish_None_r.
    destruct (findOne _ _ _) as [[id' found]|] eqn:Hfind.
    + apply findOne_Some in Hfind as (Hid' & Hname & Hfolder).
      apply lookup_insert_Some in Hid' as [[<- <-]|[_ Hid']];
        [|by destruct (Hnone id' found Hid')].
      assert (set_content template (create_width p) (create_height p)
                (create_items p)
                (if negb (length (extractFieldsFromItems (create_items p))
                          =? 0)
                 then extractFieldsFromItems (create_items p)
                 else tpl_fields template) = template) as ->.
      { rewrite Ht. unfold set_content. simpl.
        by destruct (negb _). }
      by rewrite Hvalid, insert_insert_eq.
    + exfalso. eapply (findOne_None _ _ _ id template Hfind).
      * by rewrite lookup_insert_eq.
      * by rewrite Ht.
  - unfold refreshFields. rewrite lookup_insert_eq.
    assert ({| tpl_name := tpl_name template;
               tpl_folderId := tpl_folderId template;
               tpl_width := tpl_width template;
               tpl_height := tpl_height template;
               tpl_items := tpl_items template;
               tpl_role := tpl_role template;
               tpl_fields := extractFieldsFromItems (tpl_items template) |}
            = template) as -> by (by rewrite Ht).
    by rewrite Hvalid, insert_insert_eq.
  - unfold deleteTemplate. by rewrite delete_insert_id.
Qed.

Lemma postTemplate_created_again_witness :
  let store : Templates := {["t1" := base "SKU {{sku}}"]} in
  ∃ r store',
    postTemplate store (example_body "New" "{{code}}")
    = (TemplateCreated r, store')
    ∧ store !! res_id r = None
    ∧ tpl_role (res_doc r) = draft
    ∧ postTemplate store' (example_body "New" "{{code}}")
      = (TemplateOk r, store')
    ∧ refreshFields store' (res_id r) = (TemplateOk r, store')
    ∧ deleteTemplate store' (res_id r) = (TemplateNoContent, store).
Proof.
  intros store. eexists _, _. split; [reflexivity|].
  by apply (postTemplate_created_again store).
Defined.

(** ** Names and labels: what [trim] leaves *)

Import Labels.

(** X25. The name the merge gives an output is never empty, and when it
    is not the fallback [`${template.name} #${index + 1}`] it has no white
    space at either end. *)
Theorem generatedName_trimmed
    (template : Template) (fields : list TemplateFieldPayload)
    (row : MergeRow) (index : nat) (name : string) :
  generatedName template fields row index = Some name →
  name ≠ "" ∧ (name = fallbackName template index ∨ trim name = name).
Proof.
  intros H. split; [by eapply generatedName_nonempty|]. revert H.
  unfold generatedName. destruct (or _ _) as [|s|]; [| |done].
  - intros [= <-]. by left.
  - destruct (_ && _); intros [= <-]; [right|by left]. apply trim_idemp.
Qed.

Lemma generatedName_trimmed_witness :
  "Bob" ≠ ""
  ∧ ("Bob" = fallbackName (base "{{sku}}") 0 ∨ trim "Bob" = "Bob").
Proof.
  apply (generatedName_trimmed (base "{{sku}}")
           (effectiveFields (base "{{sku}}")) {["name" := "  Bob "]} 0).
  by vm_compute.
Defined.

(** X26. What [POST /api/labels] stores. The collection changes only with
    the answer 201, and then by the one label of the answer, stored under
    an id that was free; its context and product type are those of the
    request, and its text is the trimmed text of the model's answer: not
    empty and without white space at either end. So the label has the
    three strings the schema requires. *)
Theorem postLabel_stores
    (apiKey responseText : option string) (labels : LabelStore)
    (body : LabelBody) :
  match postLabel apiKey responseText labels body with
  | (LabelCreated id label, labels') =>
      labels !! id = None ∧ labels' = <[id := label]> labels
      ∧ body_context body = Some (label_context label)
      ∧ body_productType body = Some (label_productType label)
      ∧ (∃ text, responseText = Some text ∧ label_text label = trim text)
      ∧ trim (label_text label) = label_text label
      ∧ valid_label label = true
  | (_, labels') => labels' = labels
  end.
Proof.
  unfold postLabel.
  destruct (body_context body) as [context|]; [|done].
  destruct (body_productType body) as [productType|]; [|done].
  destruct (negb (truthy (str context))) eqn:Hc; [done|].
  destruct (negb (truthy (str productType))) eqn:Hp; [done|]. simpl orb.
  unfold generateLabelContent.
  destruct apiKey as [apiKey|]; [|done].
  destruct (negb (truthy (str apiKey))); [done|].
  destruct responseText as [text|]; [|done]. cbn [fmap option_fmap option_map].
  destruct (negb (truthy (str (trim text)))) eqn:Ht; [done|].
  split_and!; try done.
  - apply not_elem_of_dom, is_fresh.
  - by exists text.
  - apply trim_idemp.
  - apply negb_false_iff in Hc, Hp, Ht.
    unfold valid_label, Schema.required. simpl in *.
    by rewrite Hc, Hp, Ht.
Qed.
